(** * vscode-encrypt-plugin: the encryption service and the password cache

    A shallow embedding of [src/services/PasswordService.ts] (the classes
    [EncryptionService] and [PasswordService]), and of what the commands
    and views build on them: the paths and the marker range of
    [commands/fileCommands.ts] and [commands/selectionCommands.ts], the
    dialogs of [ui/PasswordPrompt.ts] and the escaping of the webview
    providers.

    - JavaScript strings are sequences of UTF-16 code units ([list N]);
      a [Buffer] is a [list Byte.byte].
    - The user of a dialog is the list of the answers given to its input
      boxes, in turn.
    - The text encodings the service goes through ([utf8], [binary],
      [base64]) are written out as Node's [Buffer] performs them.
    - Node's [crypto] module (random bytes, PBKDF2, AES-256-GCM) is an
      interface, [Crypto], with the laws the service relies on.
    - [Date.now()] is an explicit argument; the mutable members of
      [PasswordService] are a record threaded through every method. *)

From Stdlib Require Import NArith ZArith Lia List Bool.
From Stdlib.Strings Require Import Byte Ascii String.
From stdpp Require Import base option list numbers gmap.

Local Open Scope list_scope.
Local Open Scope N_scope.

(** ** Buffers and strings *)

Abbreviation jsstring := (list N) (only parsing).
Abbreviation buffer := (list Byte.byte) (only parsing).

Definition byte_of_N (n : N) : Byte.byte :=
  match Byte.of_N (n mod 256) with
  | Some b => b
  | None => Byte.x00
  end.

(** [buf.toString('binary')] and [Buffer.from(s, 'binary')]: one code unit
    per byte, the code unit truncated to its low eight bits on the way back. *)
Definition toString_binary (b : buffer) : jsstring := map Byte.to_N b.
Definition from_binary (s : jsstring) : buffer := map byte_of_N s.

(** *** UTF-8 *)

Definition is_high_surrogate (c : N) : bool := (0xD800 <=? c) && (c <=? 0xDBFF).
Definition is_low_surrogate (c : N) : bool := (0xDC00 <=? c) && (c <=? 0xDFFF).

(** U+FFFD, and its UTF-8 encoding EF BF BD. *)
Definition REPLACEMENT : N := 0xFFFD.
Definition REPLACEMENT_UTF8 : list N := [0xEF; 0xBF; 0xBD].

(** [Buffer.from(s, 'utf8')] on code units: a surrogate pair becomes one
    four-byte sequence, an unpaired surrogate becomes U+FFFD. *)
Fixpoint utf8_units (s : jsstring) : list N :=
  match s with
  | [] => []
  | c :: s' =>
      if c <? 0x80 then c :: utf8_units s'
      else if c <? 0x800 then
        (0xC0 + c / 64) :: (0x80 + c mod 64) :: utf8_units s'
      else if is_high_surrogate c then
        match s' with
        | d :: s'' =>
            if is_low_surrogate d then
              let cp := 0x10000 + (c - 0xD800) * 0x400 + (d - 0xDC00) in
              (0xF0 + cp / 0x40000) :: (0x80 + (cp / 0x1000) mod 64)
                :: (0x80 + (cp / 64) mod 64) :: (0x80 + cp mod 64)
                :: utf8_units s''
            else REPLACEMENT_UTF8 ++ utf8_units s'
        | [] => REPLACEMENT_UTF8
        end
      else if is_low_surrogate c then REPLACEMENT_UTF8 ++ utf8_units s'
      else
        (0xE0 + c / 0x1000) :: (0x80 + (c / 64) mod 64) :: (0x80 + c mod 64)
          :: utf8_units s'
  end.

Definition utf8_encode (s : jsstring) : buffer := map byte_of_N (utf8_units s).

Definition is_continuation (b : N) : bool := (0x80 <=? b) && (b <=? 0xBF).

(** The code units of one decoded code point. *)
Definition units_of_code_point (cp : N) : list N :=
  if cp <? 0x10000 then [cp]
  else [0xD800 + (cp - 0x10000) / 0x400; 0xDC00 + (cp - 0x10000) mod 0x400].

(** [buf.toString('utf8')]: every maximal ill-formed part of the input
    decodes to one U+FFFD and decoding resumes at the offending byte. *)
Fixpoint utf8_decode_units (bs : list N) : jsstring :=
  match bs with
  | [] => []
  | b0 :: t0 =>
      if b0 <? 0x80 then b0 :: utf8_decode_units t0
      else if (0xC2 <=? b0) && (b0 <=? 0xDF) then
        match t0 with
        | b1 :: t1 =>
            if is_continuation b1
            then ((b0 - 0xC0) * 64 + (b1 - 0x80)) :: utf8_decode_units t1
            else REPLACEMENT :: utf8_decode_units t0
        | [] => [REPLACEMENT]
        end
      else if (0xE0 <=? b0) && (b0 <=? 0xEF) then
        let lo := if b0 =? 0xE0 then 0xA0 else 0x80 in
        let hi := if b0 =? 0xED then 0x9F else 0xBF in
        match t0 with
        | b1 :: t1 =>
            if (lo <=? b1) && (b1 <=? hi) then
              match t1 with
              | b2 :: t2 =>
                  if is_continuation b2
                  then ((b0 - 0xE0) * 0x1000 + (b1 - 0x80) * 64 + (b2 - 0x80))
                         :: utf8_decode_units t2
                  else REPLACEMENT :: utf8_decode_units t1
              | [] => [REPLACEMENT]
              end
            else REPLACEMENT :: utf8_decode_units t0
        | [] => [REPLACEMENT]
        end
      else if (0xF0 <=? b0) && (b0 <=? 0xF4) then
        let lo := if b0 =? 0xF0 then 0x90 else 0x80 in
        let hi := if b0 =? 0xF4 then 0x8F else 0xBF in
        match t0 with
        | b1 :: t1 =>
            if (lo <=? b1) && (b1 <=? hi) then
              match t1 with
              | b2 :: t2 =>
                  if is_continuation b2 then
                    match t2 with
                    | b3 :: t3 =>
                        if is_continuation b3
                        then units_of_code_point
                               ((b0 - 0xF0) * 0x40000 + (b1 - 0x80) * 0x1000
                                + (b2 - 0x80) * 64 + (b3 - 0x80))
                               ++ utf8_decode_units t3
                        else REPLACEMENT :: utf8_decode_units t2
                    | [] => [REPLACEMENT]
                    end
                  else REPLACEMENT :: utf8_decode_units t1
              | [] => [REPLACEMENT]
              end
            else REPLACEMENT :: utf8_decode_units t0
        | [] => [REPLACEMENT]
        end
      else REPLACEMENT :: utf8_decode_units t0
  end.

Definition utf8_decode (b : buffer) : jsstring :=
  utf8_decode_units (map Byte.to_N b).

(** A string with no unpaired surrogate (and every code unit below 2^16). *)
Inductive well_formed : jsstring -> Prop :=
| wf_nil : well_formed []
| wf_unit c s :
    c < 0x10000 -> is_high_surrogate c = false -> is_low_surrogate c = false ->
    well_formed s -> well_formed (c :: s)
| wf_pair h l s :
    is_high_surrogate h = true -> is_low_surrogate l = true ->
    well_formed s -> well_formed (h :: l :: s).

(** *** Base64 *)

Definition PAD : N := 61.

Definition base64_char (i : N) : N :=
  if i <? 26 then 65 + i
  else if i <? 52 then 97 + (i - 26)
  else if i <? 62 then 48 + (i - 52)
  else if i =? 62 then 43
  else 47.

(** [buf.toString('base64')]: the standard alphabet, padded. *)
Fixpoint base64_units (bs : list N) : jsstring :=
  match bs with
  | [] => []
  | [a] => [base64_char (a / 4); base64_char (a mod 4 * 16); PAD; PAD]
  | [a; b] =>
      [base64_char (a / 4); base64_char (a mod 4 * 16 + b / 16);
       base64_char (b mod 16 * 4); PAD]
  | a :: b :: c :: rest =>
      base64_char (a / 4) :: base64_char (a mod 4 * 16 + b / 16)
        :: base64_char (b mod 16 * 4 + c / 64) :: base64_char (c mod 64)
        :: base64_units rest
  end.

Definition base64_encode (b : buffer) : jsstring :=
  base64_units (map Byte.to_N b).

(** The value of a base64 character; Node also reads the URL-safe pair.
    The decoder looks at the low byte of a code unit only, so a unit above
    255 is read as the character of its low byte. *)
Definition low_byte (c : N) : N := c mod 256.

Definition unbase64 (c : N) : option N :=
  let c := low_byte c in
  if (65 <=? c) && (c <=? 90) then Some (c - 65)
  else if (97 <=? c) && (c <=? 122) then Some (c - 97 + 26)
  else if (48 <=? c) && (c <=? 57) then Some (c - 48 + 52)
  else if (c =? 43) || (c =? 45) then Some 62
  else if (c =? 47) || (c =? 95) then Some 63
  else None.

(** [Buffer.from(s, 'base64')] does not throw on a string: characters
    outside the alphabet are skipped and the first padding character ends
    the data. *)
Fixpoint base64_sextets (s : jsstring) : list N :=
  match s with
  | [] => []
  | c :: s' =>
      if low_byte c =? PAD then []
      else match unbase64 c with
           | Some v => v :: base64_sextets s'
           | None => base64_sextets s'
           end
  end.

Fixpoint base64_pack (vs : list N) : list N :=
  match vs with
  | v0 :: v1 :: v2 :: v3 :: rest =>
      (v0 * 4 + v1 / 16) :: (v1 mod 16 * 16 + v2 / 4) :: (v2 mod 4 * 64 + v3)
        :: base64_pack rest
  | [v0; v1; v2] => [v0 * 4 + v1 / 16; v1 mod 16 * 16 + v2 / 4]
  | [v0; v1] => [v0 * 4 + v1 / 16]
  | _ => []
  end.

Definition base64_decode (s : jsstring) : buffer :=
  map byte_of_N (base64_pack (base64_sextets s)).

(** ** Regular expressions

    The four patterns of [parseInPlaceEncrypted] are sequences of literal
    code units and capture groups around one greedy class repetition,
    [(class+)].  [exec] is JavaScript's backtracking search: the leftmost
    start index, and at that index the longest repetition first.  The
    patterns carry no [u] flag, so the two code units of the marker glyph
    are separate literals and separate members of a class. *)

Inductive atom :=
| Lit (c : N)
| CapPlus (cls : N -> bool).

Fixpoint plus_greedy (cls : N -> bool) (k : jsstring -> option (list jsstring))
    (s : jsstring) : option (jsstring * list jsstring) :=
  match s with
  | [] => None
  | x :: s' =>
      if cls x then
        match plus_greedy cls k s' with
        | Some (g, caps) => Some (x :: g, caps)
        | None =>
            match k s' with
            | Some caps => Some ([x], caps)
            | None => None
            end
        end
      else None
  end.

(** The capture groups of a match of [p] that starts at the head of [s]. *)
Fixpoint match_here (p : list atom) (s : jsstring) : option (list jsstring) :=
  match p with
  | [] => Some []
  | Lit c :: p' =>
      match s with
      | x :: s' => if x =? c then match_here p' s' else None
      | [] => None
      end
  | CapPlus cls :: p' =>
      match plus_greedy cls (match_here p') s with
      | Some (g, caps) => Some (g :: caps)
      | None => None
      end
  end.

(** The match array: [index] and the groups [m[1]], [m[2]], ...; its
    [length] counts the whole match [m[0]] too. *)
Record regexp_match := { index : nat; groups : list jsstring }.

Definition match_length (m : regexp_match) : nat := S (length (groups m)).

Fixpoint exec_from (p : list atom) (s : jsstring) (i : nat) : option regexp_match :=
  match match_here p s with
  | Some caps => Some {| index := i; groups := caps |}
  | None =>
      match s with
      | [] => None
      | _ :: s' => exec_from p s' (S i)
      end
  end.

Definition exec (p : list atom) (s : jsstring) : option regexp_match :=
  exec_from p s 0.

Definition COLON : N := 0x3A.
Definition PERCENT : N := 0x25.
(** The marker glyph U+1F510 as the surrogate pair D83D DD10. *)
Definition GLYPH_HI : N := 0xD83D.
Definition GLYPH_LO : N := 0xDD10.
Definition GLYPH : jsstring := [GLYPH_HI; GLYPH_LO].

(** [[^:🔐]] *)
Definition hint_class (c : N) : bool :=
  negb ((c =? COLON) || (c =? GLYPH_HI) || (c =? GLYPH_LO)).

(** [[A-Za-z0-9+/=]] *)
Definition base64_class (c : N) : bool :=
  ((65 <=? c) && (c <=? 90)) || ((97 <=? c) && (c <=? 122))
  || ((48 <=? c) && (c <=? 57)) || (c =? 43) || (c =? 47) || (c =? PAD).

Definition lits (s : jsstring) : list atom := map Lit s.

Definition pattern_with_hint : list atom :=
  lits GLYPH ++ [CapPlus hint_class; Lit COLON; CapPlus base64_class] ++ lits GLYPH.
Definition pattern_without_hint : list atom :=
  lits GLYPH ++ [CapPlus base64_class] ++ lits GLYPH.
Definition pattern_hidden_with_hint : list atom :=
  lits [PERCENT; PERCENT] ++ pattern_with_hint ++ lits [PERCENT; PERCENT].
Definition pattern_hidden_without_hint : list atom :=
  lits [PERCENT; PERCENT] ++ pattern_without_hint ++ lits [PERCENT; PERCENT].

Definition patterns : list (list atom) :=
  [pattern_with_hint; pattern_without_hint;
   pattern_hidden_with_hint; pattern_hidden_without_hint].

(** ** Node's [crypto] module *)

Inductive algorithm := aes_256_gcm.
Inductive digest := sha512.

(** [randomBytes] draws from an entropy source; [pbkdf2Sync] is applied to
    the password's UTF-8 bytes; [cipher_seal] is [createCipheriv], [update],
    [final] and [getAuthTag]; [decipher_open] is [createDecipheriv],
    [setAuthTag], [update] and [final], [None] when any of them throws. *)
Class Crypto := {
  entropy : Type;
  randomBytes : nat -> entropy -> buffer * entropy;
  pbkdf2Sync : buffer -> buffer -> N -> nat -> digest -> buffer;
  cipher_seal : algorithm -> buffer -> buffer -> buffer -> buffer * buffer;
  decipher_open : algorithm -> buffer -> buffer -> buffer -> buffer -> option buffer
}.

(** What the service relies on: the sizes it asks for, and that a sealed
    message opens under the key and iv that sealed it. *)
Class CryptoLaws (C : Crypto) : Prop := {
  randomBytes_length n g : length (randomBytes n g).1 = n;
  pbkdf2Sync_length pw salt it len d : length (pbkdf2Sync pw salt it len d) = len;
  authTag_length key iv pt :
    length key = 32%nat -> length iv = 16%nat ->
    length (cipher_seal aes_256_gcm key iv pt).2 = 16%nat;
  decipher_seal key iv pt :
    length key = 32%nat -> length iv = 16%nat ->
    decipher_open aes_256_gcm key iv
      (cipher_seal aes_256_gcm key iv pt).2 (cipher_seal aes_256_gcm key iv pt).1
    = Some pt
}.

(** Calls into [crypto], in the order made. *)
Inductive call :=
| CallRandomBytes (n : nat)
| CallPbkdf2 (password salt : buffer)
| CallCipher (key iv : buffer)
| CallDecipher (key iv authTag : buffer).

Record world {C : Crypto} := { rng : entropy; calls : list call }.
Arguments world : clear implicits.

Definition M {C : Crypto} (A : Type) : Type := world C -> A * world C.

#[global] Instance M_ret {C : Crypto} : MRet M := fun A a w => (a, w).
#[global] Instance M_bind {C : Crypto} : MBind M :=
  fun A B f m w => f (m w).1 (m w).2.

Definition logged {C : Crypto} (c : call) (w : world C) : world C :=
  {| rng := rng w; calls := calls w ++ [c] |}.

Definition crypto_randomBytes {C : Crypto} (n : nat) : M buffer :=
  fun w =>
    let drawn := randomBytes n (rng w) in
    (drawn.1, {| rng := drawn.2; calls := calls w ++ [CallRandomBytes n] |}).

Definition crypto_pbkdf2Sync {C : Crypto} (password : jsstring) (salt : buffer)
    (iterations : N) (keylen : nat) (d : digest) : M buffer :=
  fun w =>
    let pw := utf8_encode password in
    (pbkdf2Sync pw salt iterations keylen d, logged (CallPbkdf2 pw salt) w).

Definition crypto_cipher {C : Crypto} (a : algorithm) (key iv plaintext : buffer)
    : M (buffer * buffer) :=
  fun w => (cipher_seal a key iv plaintext, logged (CallCipher key iv) w).

Definition crypto_decipher {C : Crypto} (a : algorithm)
    (key iv authTag ciphertext : buffer) : M (option buffer) :=
  fun w => (decipher_open a key iv authTag ciphertext,
            logged (CallDecipher key iv authTag) w).

(** ** The records of [types.ts] *)

Module EncryptionResult.
Record t := { ciphertext : jsstring; salt : jsstring; iv : jsstring; authTag : jsstring }.
End EncryptionResult.

Module EncryptedFileData.
Record t := {
  version : jsstring;
  hint : option jsstring;
  ciphertext : jsstring;
  salt : jsstring;
  iv : jsstring;
  authTag : jsstring
}.
End EncryptedFileData.

(** The envelope at run time.  A file's envelope is
    [JSON.parse(...) as EncryptedFileData], a cast that checks nothing: a
    field can be missing ([JUndefined]) or hold a value that is no string.
    Arrays and objects, which [Buffer.from] reads as bytes of their own,
    are left out; the value of a number plays no part. *)
Inductive jsvalue :=
| JString (s : jsstring)
| JUndefined
| JNull
| JBoolean (b : bool)
| JNumber.

Module ParsedFileData.
Record t := {
  version : jsvalue;
  hint : jsvalue;
  ciphertext : jsvalue;
  salt : jsvalue;
  iv : jsvalue;
  authTag : jsvalue
}.
End ParsedFileData.

(** An envelope of the declared type is one whose fields are all there. *)
Definition at_run_time (fileData : EncryptedFileData.t) : ParsedFileData.t :=
  {| ParsedFileData.version := JString (EncryptedFileData.version fileData);
     ParsedFileData.hint :=
       match EncryptedFileData.hint fileData with
       | Some h => JString h
       | None => JUndefined
       end;
     ParsedFileData.ciphertext := JString (EncryptedFileData.ciphertext fileData);
     ParsedFileData.salt := JString (EncryptedFileData.salt fileData);
     ParsedFileData.iv := JString (EncryptedFileData.iv fileData);
     ParsedFileData.authTag := JString (EncryptedFileData.authTag fileData) |}.

Coercion at_run_time : EncryptedFileData.t >-> ParsedFileData.t.

(** [Buffer.from(value, 'base64')]: a string is decoded; for [undefined],
    [null], a boolean or a number a [TypeError] is thrown ([None]). *)
Definition Buffer_from_base64 (value : jsvalue) : option buffer :=
  match value with
  | JString s => Some (base64_decode s)
  | _ => None
  end.

(** The result of [parseInPlaceEncrypted]. *)
Module InPlace.
Record t := { hint : option jsstring; combinedData : jsstring }.
End InPlace.

Module PasswordAndHint.
Record t := { password : jsstring; hint : jsstring }.
End PasswordAndHint.

Module PasswordCacheEntry.
Record t := { password : jsstring; hint : jsstring; timestamp : Z }.
End PasswordCacheEntry.

(** An ASCII literal as a JavaScript string. *)
Definition js (s : String.string) : jsstring :=
  map (fun a => N.of_nat (Ascii.nat_of_ascii a)) (String.list_ascii_of_string s).

(** ** [EncryptionService] *)

Section EncryptionService.
Context {C : Crypto}.

Definition ALGORITHM : algorithm := aes_256_gcm.
Definition KEY_LENGTH : nat := 32.
Definition IV_LENGTH : nat := 16.
Definition SALT_LENGTH : nat := 16.
Definition AUTH_TAG_LENGTH : nat := 16.
Definition ITERATIONS : N := 210000.

Definition deriveKey (password : jsstring) (salt : buffer) : M buffer :=
  crypto_pbkdf2Sync password salt ITERATIONS KEY_LENGTH sha512.

Definition encryptToBase64 (plaintext password : jsstring) : M EncryptionResult.t :=
  salt ← crypto_randomBytes SALT_LENGTH;
  iv ← crypto_randomBytes IV_LENGTH;
  key ← deriveKey password salt;
  sealed ← crypto_cipher ALGORITHM key iv (utf8_encode plaintext);
  let ciphertext := toString_binary sealed.1 in
  let authTag := sealed.2 in
  mret {| EncryptionResult.ciphertext := base64_encode (from_binary ciphertext);
          EncryptionResult.salt := base64_encode salt;
          EncryptionResult.iv := base64_encode iv;
          EncryptionResult.authTag := base64_encode authTag |}.

(** The [try] block: whatever is thrown inside it becomes [null], be it
    by one of the four [Buffer.from], before any call into [crypto], or by
    [crypto]. *)
Definition decryptFromBase64
    (base64Ciphertext : jsvalue) (password : jsstring)
    (base64Salt base64Iv base64AuthTag : jsvalue)
    : M (option jsstring) :=
  match Buffer_from_base64 base64Ciphertext, Buffer_from_base64 base64Salt,
        Buffer_from_base64 base64Iv, Buffer_from_base64 base64AuthTag with
  | Some ciphertext, Some salt, Some iv, Some authTag =>
      key ← deriveKey password salt;
      opened ← crypto_decipher ALGORITHM key iv authTag ciphertext;
      mret (match opened with
            | Some plaintext => Some (utf8_decode plaintext)
            | None => None
            end)
  | _, _, _, _ => mret None
  end.

Definition encryptFileContent (content password : jsstring) (hint : option jsstring)
    : M EncryptedFileData.t :=
  result ← encryptToBase64 content password;
  mret {| EncryptedFileData.version := js "1.0"%string;
          EncryptedFileData.hint := hint;
          EncryptedFileData.ciphertext := EncryptionResult.ciphertext result;
          EncryptedFileData.salt := EncryptionResult.salt result;
          EncryptedFileData.iv := EncryptionResult.iv result;
          EncryptedFileData.authTag := EncryptionResult.authTag result |}.

Definition decryptFileData (fileData : ParsedFileData.t) (password : jsstring)
    : M (option jsstring) :=
  decryptFromBase64
    (ParsedFileData.ciphertext fileData)
    password
    (ParsedFileData.salt fileData)
    (ParsedFileData.iv fileData)
    (ParsedFileData.authTag fileData).

(** [hint ? ... : ...]: absent and empty hints are both falsy. *)
Definition truthy (hint : option jsstring) : bool :=
  match hint with
  | Some (_ :: _) => true
  | _ => false
  end.

(** [showMarker] defaults to [true] when the caller leaves it out. *)
Definition encryptInPlace (text password : jsstring) (hint : option jsstring)
    (showMarker : option bool) : M jsstring :=
  let showMarker := default true showMarker in
  result ← encryptToBase64 text password;
  let salt := base64_decode (EncryptionResult.salt result) in
  let iv := base64_decode (EncryptionResult.iv result) in
  let authTag := base64_decode (EncryptionResult.authTag result) in
  let ciphertext := base64_decode (EncryptionResult.ciphertext result) in
  let combined := salt ++ iv ++ authTag ++ ciphertext in
  let combinedBase64 := base64_encode combined in
  let data :=
    if truthy hint then default [] hint ++ [COLON] ++ combinedBase64
    else combinedBase64 in
  let prefix := if showMarker then GLYPH else [PERCENT; PERCENT] ++ GLYPH in
  let suffix := if showMarker then GLYPH else GLYPH ++ [PERCENT; PERCENT] in
  mret (prefix ++ data ++ suffix).

(** The loop over the patterns: the first pattern with a match decides. *)
Fixpoint parse_patterns (ps : list (list atom)) (text : jsstring) : option InPlace.t :=
  match ps with
  | [] => None
  | pattern :: ps' =>
      match exec pattern text with
      | Some m =>
          if Nat.eqb (match_length m) 3 then
            Some {| InPlace.hint := Some (nth 0 (groups m) []);
                    InPlace.combinedData := nth 1 (groups m) [] |}
          else if Nat.eqb (match_length m) 2 then
            Some {| InPlace.hint := None;
                    InPlace.combinedData := nth 0 (groups m) [] |}
          else parse_patterns ps' text
      | None => parse_patterns ps' text
      end
  end.

Definition parseInPlaceEncrypted (text : jsstring) : option InPlace.t :=
  parse_patterns patterns text.

(** [buf.subarray(start, end)], both indices clamped to the buffer. *)
Definition subarray (b : buffer) (start end_ : nat) : buffer :=
  take (end_ - start) (drop start b).

Definition decryptInPlace (encryptedText password : jsstring) : M (option jsstring) :=
  match parseInPlaceEncrypted encryptedText with
  | None => mret None
  | Some parsed =>
      let combined := base64_decode (InPlace.combinedData parsed) in
      if (length combined <? SALT_LENGTH + IV_LENGTH + AUTH_TAG_LENGTH)%nat then mret None
      else
        let salt := subarray combined 0 SALT_LENGTH in
        let iv := subarray combined SALT_LENGTH (SALT_LENGTH + IV_LENGTH) in
        let authTag :=
          subarray combined (SALT_LENGTH + IV_LENGTH)
                   (SALT_LENGTH + IV_LENGTH + AUTH_TAG_LENGTH) in
        let actualCiphertext :=
          drop (SALT_LENGTH + IV_LENGTH + AUTH_TAG_LENGTH) combined in
        decryptFromBase64
          (JString (base64_encode actualCiphertext))
          password
          (JString (base64_encode salt))
          (JString (base64_encode iv))
          (JString (base64_encode authTag))
  end.

End EncryptionService.

(** ** [PasswordService] *)

Module PasswordService.
Local Open Scope Z_scope.

Inductive level_t := workspace | folder | file.

(** The members of the class; the timer only ever calls
    [removeExpiredEntries], which is a method here like the others. *)
Record t := {
  cache : gmap (list N) PasswordCacheEntry.t;
  active : bool;
  timeout : Z;
  level : level_t
}.

Definition new : t :=
  {| cache := ∅; active := true; timeout := 30; level := workspace |}.

Definition set_cache (m : gmap (list N) PasswordCacheEntry.t) (this : t) : t :=
  {| cache := m; active := active this; timeout := timeout this; level := level this |}.

Section Methods.
(** [vscode.workspace.getWorkspaceFolder(uri)?.uri.fsPath] *)
Context (getWorkspaceFolder : jsstring -> option jsstring).

Definition clear (this : t) : nat * t :=
  let count := base.size (cache this) in
  (count, set_cache ∅ this).

Definition init (active_ : bool) (timeout_ : Z) (level_ : level_t) (this : t) : t :=
  let this :=
    {| cache := cache this; active := active_; timeout := timeout_; level := level_ |} in
  if negb active_ then (clear this).2 else this.

Definition removeExpiredEntries (now : Z) (this : t) : t :=
  if decide (timeout this = 0) then this
  else
    let timeoutMs := timeout this * 60 * 1000 in
    set_cache
      (filter (fun kv => ¬ (now - PasswordCacheEntry.timestamp kv.2 > timeoutMs))
              (cache this))
      this.

Definition getCacheKey (filePath : jsstring) (this : t) : jsstring :=
  match level this with
  | workspace => js "workspace"%string
  | folder =>
      match getWorkspaceFolder filePath with
      | Some fsPath => (fsPath ++ [COLON] ++ filePath)%list
      | None => filePath
      end
  | file => filePath
  end.

Definition put (passwordAndHint : PasswordAndHint.t) (filePath : jsstring)
    (now : Z) (this : t) : t :=
  if negb (active this) then this
  else
    let key := getCacheKey filePath this in
    set_cache
      (<[key := {| PasswordCacheEntry.password := PasswordAndHint.password passwordAndHint;
                   PasswordCacheEntry.hint := PasswordAndHint.hint passwordAndHint;
                   PasswordCacheEntry.timestamp := now |}]> (cache this))
      this.

Definition empty_result : PasswordAndHint.t :=
  {| PasswordAndHint.password := []; PasswordAndHint.hint := [] |}.

Definition get (filePath : jsstring) (now : Z) (this : t) : PasswordAndHint.t * t :=
  let key := getCacheKey filePath this in
  match cache this !! key with
  | Some entry =>
      if decide (timeout this > 0
                 ∧ now - PasswordCacheEntry.timestamp entry > timeout this * 60 * 1000)
      then (empty_result, set_cache (delete key (cache this)) this)
      else ({| PasswordAndHint.password := PasswordCacheEntry.password entry;
               PasswordAndHint.hint := PasswordCacheEntry.hint entry |}, this)
  | None => (empty_result, this)
  end.

Definition has (filePath : jsstring) (now : Z) (this : t) : bool * t :=
  let key := getCacheKey filePath this in
  match cache this !! key with
  | None => (false, this)
  | Some entry =>
      if decide (timeout this > 0) then
        let age := now - PasswordCacheEntry.timestamp entry in
        let timeoutMs := timeout this * 60 * 1000 in
        (bool_decide (age <= timeoutMs), this)
      else (true, this)
  end.

Definition clearForFile (filePath : jsstring) (this : t) : t :=
  let key := getCacheKey filePath this in
  set_cache (delete key (cache this)) this.

Definition size (this : t) : nat := base.size (cache this).

End Methods.
End PasswordService.

(** ** [String.prototype] *)

Definition endsWith (s suffix : jsstring) : bool :=
  bool_decide (drop (length s - length suffix) s = suffix).

(** [s.slice(0, -n)] *)
Definition slice_off_end (s : jsstring) (n : nat) : jsstring :=
  take (length s - n) s.

(** White space and line terminators, as [trim] strips them. *)
Definition is_white_space (c : N) : bool :=
  ((0x09 <=? c) && (c <=? 0x0D)) || (c =? 0x20) || (c =? 0xA0) || (c =? 0x1680)
  || ((0x2000 <=? c) && (c <=? 0x200A)) || (c =? 0x2028) || (c =? 0x2029)
  || (c =? 0x202F) || (c =? 0x205F) || (c =? 0x3000) || (c =? 0xFEFF).

Fixpoint trimStart (s : jsstring) : jsstring :=
  match s with
  | [] => []
  | c :: s' => if is_white_space c then trimStart s' else s
  end.

Definition trimEnd (s : jsstring) : jsstring := reverse (trimStart (reverse s)).

Definition trim (s : jsstring) : jsstring := trimEnd (trimStart s).

(** [s.replace(/[...]/g, m => f(m))] and [s.replace(/c/g, r)]: every code
    unit is replaced on its own, those outside the class by themselves. *)
Definition replace_each (f : N -> jsstring) (s : jsstring) : jsstring := s ≫= f.

Definition replace_all (c : N) (r : jsstring) (s : jsstring) : jsstring :=
  replace_each (fun x => if x =? c then r else [x]) s.

(** ** [commands/fileCommands.ts] *)

Module FileCommands.

Definition isEncryptedFile (filePath : jsstring) : bool :=
  endsWith filePath (js ".md.enc").

(** [createEncryptedFile]: the [validateInput] of the name box ([None] is
    [null], the name is accepted); the name is trimmed afterwards. *)
Definition validateInput (value : jsstring) : option jsstring :=
  if bool_decide (value = []) || Nat.eqb (length (trim value)) 0
  then Some (js "File name cannot be empty")
  else if negb (endsWith value (js ".md.enc"))
  then Some (js "File must end with .md.enc")
  else None.

(** [encryptCurrentFile]: the path the encrypted copy is written to. *)
Definition encryptedPath (filePath : jsstring) : jsstring :=
  filePath ++ (if endsWith filePath (js ".md") then js "enc" else js ".enc").

(** [filePath.replace(/\.enc$/, '')]: a final ".enc" is cut off. *)
Definition replace_final_enc (filePath : jsstring) : jsstring :=
  if endsWith filePath (js ".enc") then take (length filePath - 4) filePath
  else filePath.

(** [decryptToFile]: the path the plaintext is written to. *)
Definition decryptedPath (filePath : jsstring) : jsstring :=
  if endsWith filePath (js ".md.enc") then slice_off_end filePath 4
  else replace_final_enc filePath.

(** [changePassword], between the prompt and the write: the current
    password must open the file, and what it opened is encrypted under
    the new password and hint. *)
Definition changePassword_data {C : Crypto} (fileData : EncryptedFileData.t)
    (current new_ : PasswordAndHint.t) : M (option EncryptedFileData.t) :=
  decryptedContent ← decryptFileData fileData (PasswordAndHint.password current);
  match decryptedContent with
  | None => mret None
  | Some content =>
      newFileData ← encryptFileContent content (PasswordAndHint.password new_)
                                       (Some (PasswordAndHint.hint new_));
      mret (Some newFileData)
  end.

End FileCommands.

(** ** [commands/selectionCommands.ts] *)

Module SelectionCommands.

(** The patterns of [findEncryptedMarkerRange] have no group: literals and
    a greedy class repetition [class*].  A match is its length. *)
Inductive span_atom :=
| SLit (c : N)
| SStar (cls : N -> bool).

Fixpoint star_greedy (cls : N -> bool) (k : jsstring -> option nat) (s : jsstring)
    : option nat :=
  match s with
  | [] => k []
  | x :: s' =>
      if cls x then
        match star_greedy cls k s' with
        | Some n => Some (S n)
        | None => k s
        end
      else k s
  end.

Fixpoint span_here (p : list span_atom) (s : jsstring) : option nat :=
  match p with
  | [] => Some 0%nat
  | SLit c :: p' =>
      match s with
      | x :: s' => if x =? c then S <$> span_here p' s' else None
      | [] => None
      end
  | SStar cls :: p' => star_greedy cls (span_here p') s
  end.

(** [text.match(pattern)] without the [g] flag: [index] and the length of
    [m[0]] of the leftmost match. *)
Fixpoint match_from (p : list span_atom) (s : jsstring) (i : nat) : option (nat * nat) :=
  match span_here p s with
  | Some n => Some (i, n)
  | None =>
      match s with
      | [] => None
      | _ :: s' => match_from p s' (S i)
      end
  end.

(** [[^🔐]] *)
Definition not_glyph (c : N) : bool := negb ((c =? GLYPH_HI) || (c =? GLYPH_LO)).

Definition slits (s : jsstring) : list span_atom := map SLit s.

Definition span_visible : list span_atom :=
  slits GLYPH ++ [SStar not_glyph] ++ slits GLYPH.
Definition span_hidden : list span_atom :=
  slits [PERCENT; PERCENT] ++ span_visible ++ slits [PERCENT; PERCENT].

Record range := { start : nat; end_ : nat }.

Fixpoint first_range (ps : list (list span_atom)) (text : jsstring) : option range :=
  match ps with
  | [] => None
  | pattern :: ps' =>
      match match_from pattern text 0 with
      | Some (i, n) => Some {| start := i; end_ := (i + n)%nat |}
      | None => first_range ps' text
      end
  end.

Definition findEncryptedMarkerRange (text : jsstring) : option range :=
  first_range [span_visible; span_hidden] text.

(** [showDecryptedContent], [onSave]: the text that replaces the marker,
    [encryptInPlace(newContent, password, hint ?? '', showMarker)]. *)
Definition reEncrypted {C : Crypto} (newContent password : jsstring)
    (hint : option jsstring) (showMarker : bool) : M jsstring :=
  encryptInPlace newContent password (Some (default [] hint)) (Some showMarker).

End SelectionCommands.

(** ** Escaping in the webview providers *)

Module EncryptedDocumentProvider.

Definition escapeHtml (text : jsstring) : jsstring :=
  replace_each
    (fun m =>
       if m =? 38 then js "&amp;"
       else if m =? 60 then js "&lt;"
       else if m =? 62 then js "&gt;"
       else if m =? 34 then js "&quot;"
       else if m =? 39 then js "&#039;"
       else [m])
    text.

Definition escapeJs (text : jsstring) : jsstring :=
  replace_all 13 [92; 114]
    (replace_all 10 [92; 110]
       (replace_all 34 [92; 34]
          (replace_all 39 [92; 39]
             (replace_all 92 [92; 92] text)))).

End EncryptedDocumentProvider.

Module DecryptPanel.

Definition _escapeHtml (text : jsstring) : jsstring :=
  replace_each
    (fun m =>
       if m =? 38 then js "&amp;"
       else if m =? 60 then js "&lt;"
       else if m =? 62 then js "&gt;"
       else if m =? 34 then js "&quot;"
       else if m =? 39 then js "&#039;"
       else [m])
    text.

End DecryptPanel.

Module EncryptedFileEditorProvider.

Definition escapeHtml (text : jsstring) : jsstring :=
  replace_each
    (fun m =>
       if m =? 38 then js "&amp;"
       else if m =? 60 then js "&lt;"
       else if m =? 62 then js "&gt;"
       else if m =? 34 then js "&quot;"
       else if m =? 39 then js "&#039;"
       else if m =? 96 then js "&#96;"
       else if m =? 47 then js "&#47;"
       else [m])
    text.

End EncryptedFileEditorProvider.

(** ** [ui/PasswordPrompt.ts]

    The user is the list of answers given to the input boxes in turn,
    [None] for a box that is dismissed; a dialog is still open ([None])
    when the answers run out while a box is shown. *)

Module PasswordPrompt.

Record session := { answers : list (option jsstring); shown : list jsstring }.

Definition dialog (A : Type) : Type := session -> option (A * session).

Record PasswordPromptResult := { confirmed : bool; password : jsstring; hint : jsstring }.

Definition is_empty (s : jsstring) : bool :=
  match s with
  | [] => true
  | _ :: _ => false
  end.

(** The loop of [MultiStepInput.showInputBox]: a dismissed box gives the
    empty string, an answer with a validation error is shown the error
    and asked again. *)
Fixpoint ask (validate : jsstring -> option jsstring)
    (pending : list (option jsstring)) (errors : list jsstring)
    : option (jsstring * session) :=
  match pending with
  | [] => None
  | None :: rest => Some ([], {| answers := rest; shown := errors |})
  | Some result :: rest =>
      match validate result with
      | Some (e :: error) => ask validate rest (errors ++ [e :: error])
      | _ => Some (result, {| answers := rest; shown := errors |})
      end
  end.

Definition showInputBox (validate : option (jsstring -> option jsstring))
    : dialog jsstring :=
  fun s => ask (default (fun _ => None) validate) (answers s) (shown s).

Definition not_empty (value : jsstring) : option jsstring :=
  if is_empty value || (length value <? 1)%nat
  then Some (js "Password cannot be empty")
  else None.

Definition same_as (password : jsstring) (value : jsstring) : option jsstring :=
  if bool_decide (value ≠ password) then Some (js "Passwords do not match") else None.

Record EncryptionOptions := {
  confirmPassword : option bool;
  defaultPassword : option jsstring;
  defaultHint : option jsstring
}.

Definition showForEncryption (options : EncryptionOptions)
    : dialog PasswordPromptResult :=
  fun s =>
    let hint0 := default [] (defaultHint options) in
    let confirmPassword := default true (confirmPassword options) in
    (* Step 1: enter password *)
    '(password, s1) ← showInputBox (Some not_empty) s;
    if is_empty password
    then Some ({| confirmed := false; password := password; hint := hint0 |}, s1)
    else
      (* Step 3: optional hint *)
      let step3 s2 :=
        '(hint, s3) ← showInputBox None s2;
        Some ({| confirmed := true; password := password; hint := hint |}, s3) in
      (* Step 2: confirm password (if required) *)
      if confirmPassword then
        '(confirmed_, s2) ← showInputBox (Some (same_as password)) s1;
        if is_empty confirmed_
        then Some ({| confirmed := false; password := []; hint := hint0 |}, s2)
        else step3 s2
      else step3 s1.

Record DecryptionOptions := {
  dec_hint : option jsstring;
  dec_defaultPassword : option jsstring
}.

(** The loop of [showForDecryption], over [vscode.window.showInputBox]. *)
Fixpoint decryption_loop (hint : jsstring) (pending : list (option jsstring))
    (errors : list jsstring) : option (option PasswordAndHint.t * session) :=
  match pending with
  | [] => None
  | password :: rest =>
      if is_empty (default [] password)
      then Some (None, {| answers := rest; shown := errors |})
      else if negb (is_empty (default [] password))
              && (1 <=? length (default [] password))%nat
      then Some (Some {| PasswordAndHint.password := default [] password;
                         PasswordAndHint.hint := hint |},
                 {| answers := rest; shown := errors |})
      else decryption_loop hint rest (errors ++ [js "Password cannot be empty"])
  end.

Definition showForDecryption (options : DecryptionOptions)
    : dialog (option PasswordAndHint.t) :=
  fun s => decryption_loop (default [] (dec_hint options)) (answers s) (shown s).

Record ChangeResult := { current : PasswordAndHint.t; new_ : PasswordAndHint.t }.

Definition different_from (current_password : jsstring) (value : jsstring)
    : option jsstring :=
  if is_empty value || (length value <? 1)%nat
  then Some (js "Password cannot be empty")
  else if bool_decide (value = current_password)
  then Some (js "New password must be different from current password")
  else None.

Definition showForChangePassword (currentHint : option jsstring)
    : dialog (option ChangeResult) :=
  fun s =>
    let current_hint := default [] currentHint in
    let finish (current_password new_password new_hint : jsstring) (s' : session) :=
      if is_empty current_password || is_empty new_password
      then Some (None, s')
      else Some (Some {| current := {| PasswordAndHint.password := current_password;
                                       PasswordAndHint.hint := current_hint |};
                         new_ := {| PasswordAndHint.password := new_password;
                                    PasswordAndHint.hint := new_hint |} |}, s') in
    (* Step 1: enter current password *)
    '(current_password, s1) ← showInputBox (Some not_empty) s;
    if is_empty current_password then finish current_password [] [] s1
    else
      (* Step 2: enter new password *)
      '(new_password, s2) ← showInputBox (Some (different_from current_password)) s1;
      if is_empty new_password then finish current_password new_password [] s2
      else
        (* Step 3: confirm new password *)
        '(confirmed_, s3) ← showInputBox (Some (same_as new_password)) s2;
        if is_empty confirmed_ then finish current_password [] [] s3
        else
          (* Step 4: optional hint *)
          '(new_hint, s4) ← showInputBox None s3;
          finish current_password new_password new_hint s4.

End PasswordPrompt.

(** ** String literals of the webview scripts

    The pages put strings into their scripts between single quotes.
    [literal_value body] is the string such a literal denotes: a code unit
    stands for itself, a backslash with one of the single escape characters
    for the unit it names, with any other character for that character.  A
    body with a bare quote or line break is no literal, and the escapes
    [\x], [\u], [\0]..[\9] and the line continuation are left out: both
    give [None]. *)

Definition QUOTE : N := 0x27.
Definition DQUOTE : N := 0x22.
Definition BACKSLASH : N := 0x5C.
Definition LF : N := 0x0A.
Definition CR : N := 0x0D.

Definition single_escape (e : N) : option N :=
  if (e =? QUOTE) || (e =? DQUOTE) || (e =? BACKSLASH) then Some e
  else if e =? 0x62 then Some 0x08            (* \b *)
  else if e =? 0x66 then Some 0x0C            (* \f *)
  else if e =? 0x6E then Some LF              (* \n *)
  else if e =? 0x72 then Some CR              (* \r *)
  else if e =? 0x74 then Some 0x09            (* \t *)
  else if e =? 0x76 then Some 0x0B            (* \v *)
  else if (e =? 0x78) || (e =? 0x75) || ((0x30 <=? e) && (e <=? 0x39))
          || (e =? LF) || (e =? CR) || (e =? 0x2028) || (e =? 0x2029)
  then None
  else Some e.

Fixpoint literal_value (body : jsstring) : option jsstring :=
  match body with
  | [] => Some []
  | c :: rest =>
      if c =? BACKSLASH then
        match rest with
        | [] => None
        | e :: rest' =>
            match single_escape e with
            | Some x => cons x <$> literal_value rest'
            | None => None
            end
        end
      else if (c =? QUOTE) || (c =? LF) || (c =? CR) then None
      else cons c <$> literal_value rest
  end.

Module EditorPage.
Import EncryptedFileEditorProvider.



End EditorPage.

(** ** A small instance of [Crypto]

    It seals by prefixing the key to the plaintext and derives the tag from
    the iv (its bytes complemented), which is enough to run the service on
    concrete inputs. *)

Module ToyCrypto.

Definition same (a b : buffer) : bool :=
  bool_decide (map Byte.to_N a = map Byte.to_N b).

Definition toy_randomBytes (n : nat) (g : N) : buffer * N :=
  (replicate n (byte_of_N g), g + 1).

Definition toy_pbkdf2Sync (pw salt : buffer) (it : N) (len : nat) (d : digest) : buffer :=
  take len (pw ++ salt ++ replicate len Byte.x00).

Definition toy_tag (iv : buffer) : buffer :=
  take 16 (map (fun b => byte_of_N (255 - Byte.to_N b)) iv ++ replicate 16 Byte.xff).

Definition toy_seal (a : algorithm) (key iv pt : buffer) : buffer * buffer :=
  (key ++ pt, toy_tag iv).

Definition toy_open (a : algorithm) (key iv authTag ct : buffer) : option buffer :=
  if same authTag (toy_tag iv) && same (take (length key) ct) key
  then Some (drop (length key) ct)
  else None.

#[export] Instance toy : Crypto := {|
  entropy := N;
  randomBytes := toy_randomBytes;
  pbkdf2Sync := toy_pbkdf2Sync;
  cipher_seal := toy_seal;
  decipher_open := toy_open
|}.

Definition w0 : world toy := {| rng := 7; calls := [] |}.

End ToyCrypto.

(** ** Vocabulary of the statements *)

(** *** Marker shapes *)

Definition in_class (cls : N -> bool) (s : jsstring) : Prop :=
  Forall (fun c => cls c = true) s.

Definition is_hint (h : jsstring) : Prop := h ≠ [] ∧ in_class hint_class h.
Definition is_data (d : jsstring) : Prop := d ≠ [] ∧ in_class base64_class d.

(** A visible marker with a hint starts at index [i] of [text]. *)
Definition marker_with_hint_at (text : jsstring) (i : nat) (h d : jsstring) : Prop :=
  ∃ post, drop i text = GLYPH ++ h ++ [COLON] ++ d ++ GLYPH ++ post
          ∧ is_hint h ∧ is_data d.

(** A visible marker without a hint starts at index [i] of [text]. *)
Definition marker_without_hint_at (text : jsstring) (i : nat) (d : jsstring) : Prop :=
  ∃ post, drop i text = GLYPH ++ d ++ GLYPH ++ post ∧ is_data d.

Definition marker_prefix (showMarker : option bool) : jsstring :=
  if default true showMarker then GLYPH else [PERCENT; PERCENT] ++ GLYPH.
Definition marker_suffix (showMarker : option bool) : jsstring :=
  if default true showMarker then GLYPH else GLYPH ++ [PERCENT; PERCENT].

Definition hidden_wrap (showMarker : option bool) : jsstring :=
  if default true showMarker then [] else [PERCENT; PERCENT].

(** The hints [encryptInPlace] can carry: none, or a non-empty one free of
    the colon and of the two code units of the glyph. *)
Definition usable_hint (hint : option jsstring) : Prop :=
  match hint with
  | Some h => is_hint h
  | None => True
  end.

(** *** Envelopes with a field that cannot be read *)



(** *** Spans and special characters *)

(** A glyph-delimited span of length [n] starts at index [i] of [text]. *)
Definition span_at (text : jsstring) (i n : nat) : Prop :=
  ∃ x post, drop i text = GLYPH ++ x ++ GLYPH ++ post
            ∧ in_class SelectionCommands.not_glyph x ∧ n = (4 + length x)%nat.


(** *** What one encryption draws and computes *)

Section Derived.
Context {C : Crypto}.

Definition fresh_salt (w : world C) : buffer :=
  (randomBytes SALT_LENGTH (rng w)).1.

Definition fresh_iv (w : world C) : buffer :=
  (randomBytes IV_LENGTH (randomBytes SALT_LENGTH (rng w)).2).1.

Definition derived_key (password : jsstring) (salt : buffer) : buffer :=
  pbkdf2Sync (utf8_encode password) salt ITERATIONS KEY_LENGTH sha512.

(** The ciphertext and the tag of [plaintext] under [password] in [w]. *)
Definition sealed (plaintext password : jsstring) (w : world C) : buffer * buffer :=
  cipher_seal ALGORITHM (derived_key password (fresh_salt w)) (fresh_iv w)
              (utf8_encode plaintext).

Definition combined_blob (text password : jsstring) (w : world C) : buffer :=
  fresh_salt w ++ fresh_iv w ++ (sealed text password w).2 ++ (sealed text password w).1.

(** What [decryptFromBase64] hands to the decipher, and what it makes of
    the answer. *)
Definition opened (password : jsstring) (salt iv authTag ciphertext : buffer)
    : option jsstring :=
  utf8_decode <$>
    decipher_open ALGORITHM (derived_key password salt) iv authTag ciphertext.

Definition after_decrypt (password : jsstring) (salt iv authTag : buffer)
    (w : world C) : world C :=
  logged (CallDecipher (derived_key password salt) iv authTag)
         (logged (CallPbkdf2 (utf8_encode password) salt) w).

Definition with_version (v : jsstring) (fileData : EncryptedFileData.t)
    : EncryptedFileData.t :=
  {| EncryptedFileData.version := v;
     EncryptedFileData.hint := EncryptedFileData.hint fileData;
     EncryptedFileData.ciphertext := EncryptedFileData.ciphertext fileData;
     EncryptedFileData.salt := EncryptedFileData.salt fileData;
     EncryptedFileData.iv := EncryptedFileData.iv fileData;
     EncryptedFileData.authTag := EncryptedFileData.authTag fileData |}.

End Derived.

(** *** Inputs of the concrete runs *)

Import ToyCrypto.

Definition hello : jsstring := js "hello".
Definition correct_horse : jsstring := js "correct-horse".
Definition animal : jsstring := js "animal".

Definition two_markers : jsstring :=
  GLYPH ++ js "QUJD" ++ GLYPH ++ js " " ++ GLYPH ++ js "h:REVG" ++ GLYPH.

Definition short_marker : jsstring := GLYPH ++ js "QUJD" ++ GLYPH.
Definition hello_marker : jsstring :=
  (encryptInPlace hello correct_horse None (Some true) w0).1.

Definition no_workspace : jsstring -> option jsstring := fun _ => None.
Definition horse_and_animal : PasswordAndHint.t :=
  {| PasswordAndHint.password := correct_horse; PasswordAndHint.hint := animal |}.
Definition a_b_md : jsstring := js "/a/b.md".
Definition minutes (n : Z) : Z := (n * 60 * 1000)%Z.

Definition stored_entry : PasswordCacheEntry.t :=
  {| PasswordCacheEntry.password := correct_horse;
     PasswordCacheEntry.hint := animal;
     PasswordCacheEntry.timestamp := 0 |}.
Definition cache_before_sweep : gmap (list N) PasswordCacheEntry.t :=
  PasswordService.cache
    (PasswordService.put no_workspace horse_and_animal a_b_md 0 PasswordService.new).
Definition cache_after_sweep (now : Z) : gmap (list N) PasswordCacheEntry.t :=
  PasswordService.cache
    (PasswordService.removeExpiredEntries now
       (PasswordService.put no_workspace horse_and_animal a_b_md 0 PasswordService.new)).

Definition switched_off : PasswordService.t :=
  PasswordService.init false 30 PasswordService.workspace PasswordService.new.

(** *** Further inputs *)

Definition one_folder : jsstring -> option jsstring := fun _ => Some (js "/a").
Definition per_folder : PasswordService.t :=
  PasswordService.init true 30 PasswordService.folder PasswordService.new.
Definition negative_timeout : PasswordService.t :=
  PasswordService.put no_workspace horse_and_animal a_b_md 0
    (PasswordService.init true (-1) PasswordService.workspace PasswordService.new).
Definition hello_and_animal : PasswordAndHint.t :=
  {| PasswordAndHint.password := hello; PasswordAndHint.hint := animal |}.
Definition hello_envelope : EncryptedFileData.t :=
  (encryptFileContent hello correct_horse (Some animal) w0).1.
Definition hinted_marker : InPlace.t :=
  {| InPlace.hint := Some (js "h"); InPlace.combinedData := js "REVG" |}.

Definition typed_twice : PasswordPrompt.session :=
  {| PasswordPrompt.answers := [Some []; Some correct_horse; Some hello;
                                Some correct_horse; Some animal];
     PasswordPrompt.shown := [] |}.
Definition no_options : PasswordPrompt.EncryptionOptions :=
  {| PasswordPrompt.confirmPassword := None;
     PasswordPrompt.defaultPassword := None;
     PasswordPrompt.defaultHint := None |}.
Definition change_answers : PasswordPrompt.session :=
  {| PasswordPrompt.answers := [Some correct_horse; Some correct_horse; Some hello;
                                Some hello; None];
     PasswordPrompt.shown := [] |}.

(** * Properties *)

(** ** Arithmetic helpers *)

Ltac divlia := zify; Z.to_euclidean_division_equations; lia.

(** Decide every comparison in the goal, dropping the impossible cases. *)
Ltac cmp_cases :=
  repeat match goal with
    | |- context [N.ltb ?a ?b] => destruct (N.ltb_spec a b); try lia
    | |- context [N.leb ?a ?b] => destruct (N.leb_spec a b); try lia
    | |- context [N.eqb ?a ?b] => destruct (N.eqb_spec a b); try lia
    | H : context [N.ltb ?a ?b] |- _ => destruct (N.ltb_spec a b); try lia
    | H : context [N.leb ?a ?b] |- _ => destruct (N.leb_spec a b); try lia
    | H : context [N.eqb ?a ?b] |- _ => destruct (N.eqb_spec a b); try lia
    end;
  cbn [andb orb negb].

(** Rewrite every comparison that the hypotheses settle, pruning the
    branches not taken as soon as their test is known. *)
Ltac cmp_solve :=
  repeat (match goal with
    | |- context [N.ltb ?a ?b] =>
        first [ rewrite (proj2 (N.ltb_lt a b)) by lia
              | rewrite (proj2 (N.ltb_ge a b)) by lia ]
    | |- context [N.leb ?a ?b] =>
        first [ rewrite (proj2 (N.leb_le a b)) by lia
              | rewrite (proj2 (N.leb_gt a b)) by lia ]
    | |- context [N.eqb ?a ?b] =>
        first [ rewrite (proj2 (N.eqb_eq a b)) by lia
              | rewrite (proj2 (N.eqb_neq a b)) by lia ]
    end; cbn [andb orb negb]; cbv iota).

Lemma to_N_lt (b : Byte.byte) : Byte.to_N b < 256.
Proof. pose proof (Byte.to_N_bounded b). lia. Qed.

Lemma to_N_byte_of_N (n : N) : Byte.to_N (byte_of_N n) = n mod 256.
Proof.
  unfold byte_of_N.
  destruct (Byte.of_N (n mod 256)) as [b|] eqn:E.
  - by apply Byte.to_of_N.
  - apply Byte.of_N_None_iff in E. divlia.
Qed.

Lemma byte_of_to_N (b : Byte.byte) : byte_of_N (Byte.to_N b) = b.
Proof.
  unfold byte_of_N.
  rewrite N.mod_small by apply to_N_lt.
  by rewrite Byte.of_to_N.
Qed.

Lemma map_byte_of_to_N (b : buffer) : map byte_of_N (map Byte.to_N b) = b.
Proof.
  induction b as [|x b IH]; [done|].
  cbn [map]. by rewrite byte_of_to_N, IH.
Qed.

Lemma map_to_N_byte_of (l : list N) :
  Forall (fun n => n < 256) l -> map Byte.to_N (map byte_of_N l) = l.
Proof.
  induction 1 as [|n l Hn _ IH]; [done|].
  cbn [map]. rewrite to_N_byte_of_N, N.mod_small, IH by done. done.
Qed.

Lemma Forall_to_N (b : buffer) : Forall (fun n => n < 256) (map Byte.to_N b).
Proof. induction b; constructor; [apply to_N_lt | done]. Qed.

Lemma from_binary_toString (b : buffer) : from_binary (toString_binary b) = b.
Proof. apply map_byte_of_to_N. Qed.

(** ** Base64 *)

Lemma base64_char_low (i : N) : low_byte (base64_char i) = base64_char i.
Proof. apply N.mod_small. unfold base64_char. cmp_cases; lia. Qed.

Lemma unbase64_char (i : N) : i < 64 -> unbase64 (base64_char i) = Some i.
Proof.
  intros Hi. unfold unbase64. rewrite base64_char_low. unfold base64_char.
  cmp_cases; f_equal; lia.
Qed.

Lemma base64_char_not_pad (i : N) : (base64_char i =? PAD) = false.
Proof. unfold base64_char, PAD. cmp_cases; done. Qed.

Lemma base64_class_char (i : N) : base64_class (base64_char i) = true.
Proof. unfold base64_class, base64_char, PAD. cmp_cases; done. Qed.

Lemma sextets_char (i : N) (s : jsstring) :
  i < 64 -> base64_sextets (base64_char i :: s) = i :: base64_sextets s.
Proof.
  intros Hi. cbn [base64_sextets].
  by rewrite base64_char_low, base64_char_not_pad, unbase64_char.
Qed.

Lemma base64_units_roundtrip (bs : list N) :
  Forall (fun n => n < 256) bs ->
  base64_pack (base64_sextets (base64_units bs)) = bs.
Proof.
  remember (length bs) as n eqn:Hn.
  revert bs Hn. induction (lt_wf n) as [n _ IH]. intros bs Hn Hbs.
  destruct bs as [|a [|b [|c rest]]]; [done|..].
  - inversion_clear Hbs as [|?? Ha _].
    cbn [base64_units]. rewrite !sextets_char by divlia.
    cbn. f_equal. divlia.
  - inversion_clear Hbs as [|?? Ha Hbs']. inversion_clear Hbs' as [|?? Hb _].
    cbn [base64_units]. rewrite !sextets_char by divlia.
    cbn. f_equal; [|f_equal]; divlia.
  - inversion_clear Hbs as [|?? Ha Hbs']. inversion_clear Hbs' as [|?? Hb Hbs''].
    inversion_clear Hbs'' as [|?? Hc Hrest].
    cbn [base64_units]. rewrite !sextets_char by divlia.
    cbn [base64_pack].
    rewrite (IH (length rest)) by (done || (subst n; cbn; lia)).
    f_equal; [|f_equal; [|f_equal]]; divlia.
Qed.

Lemma base64_decode_encode (b : buffer) : base64_decode (base64_encode b) = b.
Proof.
  unfold base64_decode, base64_encode.
  rewrite base64_units_roundtrip by apply Forall_to_N.
  apply map_byte_of_to_N.
Qed.

Lemma base64_units_class (bs : list N) :
  Forall (fun c => base64_class c = true) (base64_units bs).
Proof.
  remember (length bs) as n eqn:Hn.
  revert bs Hn. induction (lt_wf n) as [n _ IH]. intros bs Hn.
  destruct bs as [|a [|b [|c rest]]]; cbn [base64_units];
    repeat first [apply Forall_nil_2 | apply Forall_cons_2];
    try apply base64_class_char; try done.
  apply (IH (length rest)); [subst n; cbn; lia | done].
Qed.

Lemma base64_encode_class (b : buffer) :
  Forall (fun c => base64_class c = true) (base64_encode b).
Proof. apply base64_units_class. Qed.

Lemma base64_encode_nonempty (b : buffer) : b ≠ [] -> base64_encode b ≠ [].
Proof. by destruct b as [|x [|y [|z b]]]. Qed.

(** ** UTF-8 *)

Lemma encode_1 c s : c < 0x80 -> utf8_units (c :: s) = c :: utf8_units s.
Proof. intros. cbn [utf8_units]. by cmp_solve. Qed.

Lemma encode_2 c s :
  0x80 <= c < 0x800 ->
  utf8_units (c :: s) = (0xC0 + c / 64) :: (0x80 + c mod 64) :: utf8_units s.
Proof. intros. cbn [utf8_units]. by cmp_solve. Qed.

Lemma encode_3 c s :
  0x800 <= c -> is_high_surrogate c = false -> is_low_surrogate c = false ->
  utf8_units (c :: s)
  = (0xE0 + c / 0x1000) :: (0x80 + (c / 64) mod 64) :: (0x80 + c mod 64)
      :: utf8_units s.
Proof.
  intros ? Hh Hl. cbn [utf8_units]. rewrite Hh, Hl. by cmp_solve.
Qed.

Lemma encode_4 h l s :
  is_high_surrogate h = true -> is_low_surrogate l = true ->
  utf8_units (h :: l :: s)
  = let cp := 0x10000 + (h - 0xD800) * 0x400 + (l - 0xDC00) in
    (0xF0 + cp / 0x40000) :: (0x80 + (cp / 0x1000) mod 64)
      :: (0x80 + (cp / 64) mod 64) :: (0x80 + cp mod 64) :: utf8_units s.
Proof.
  intros Hh Hl. cbn [utf8_units]. rewrite Hh, Hl.
  unfold is_high_surrogate in Hh.
  apply andb_true_iff in Hh as [Hh%N.leb_le _].
  by cmp_solve.
Qed.

Lemma decode_1 b t : b < 0x80 -> utf8_decode_units (b :: t) = b :: utf8_decode_units t.
Proof. intros. cbn [utf8_decode_units]. by cmp_solve. Qed.

Lemma decode_2 b0 b1 t :
  0xC2 <= b0 <= 0xDF -> 0x80 <= b1 <= 0xBF ->
  utf8_decode_units (b0 :: b1 :: t)
  = ((b0 - 0xC0) * 64 + (b1 - 0x80)) :: utf8_decode_units t.
Proof.
  intros. cbn [utf8_decode_units]. unfold is_continuation. by cmp_solve.
Qed.

Lemma decode_3 b0 b1 b2 t :
  0xE0 <= b0 <= 0xEF -> 0x80 <= b1 <= 0xBF -> 0x80 <= b2 <= 0xBF ->
  (b0 = 0xE0 -> 0xA0 <= b1) -> (b0 = 0xED -> b1 <= 0x9F) ->
  utf8_decode_units (b0 :: b1 :: b2 :: t)
  = ((b0 - 0xE0) * 0x1000 + (b1 - 0x80) * 64 + (b2 - 0x80)) :: utf8_decode_units t.
Proof.
  intros. cbn [utf8_decode_units]. unfold is_continuation.
  destruct (N.eq_dec b0 0xE0), (N.eq_dec b0 0xED); try lia; by cmp_solve.
Qed.

Lemma decode_4 b0 b1 b2 b3 t :
  0xF0 <= b0 <= 0xF4 -> 0x80 <= b1 <= 0xBF -> 0x80 <= b2 <= 0xBF ->
  0x80 <= b3 <= 0xBF ->
  (b0 = 0xF0 -> 0x90 <= b1) -> (b0 = 0xF4 -> b1 <= 0x8F) ->
  utf8_decode_units (b0 :: b1 :: b2 :: b3 :: t)
  = units_of_code_point
      ((b0 - 0xF0) * 0x40000 + (b1 - 0x80) * 0x1000 + (b2 - 0x80) * 64 + (b3 - 0x80))
    ++ utf8_decode_units t.
Proof.
  intros. cbn [utf8_decode_units]. unfold is_continuation.
  destruct (N.eq_dec b0 0xF0), (N.eq_dec b0 0xF4); try lia; by cmp_solve.
Qed.

Lemma code_point_recompose cp :
  (0xF0 + cp / 0x40000 - 0xF0) * 0x40000
  + (0x80 + (cp / 0x1000) mod 64 - 0x80) * 0x1000
  + (0x80 + (cp / 64) mod 64 - 0x80) * 64
  + (0x80 + cp mod 64 - 0x80) = cp.
Proof.
  rewrite !(N.add_comm 0xF0), !(N.add_comm 0x80), !N.add_sub.
  divlia.
Qed.

Lemma utf8_units_roundtrip (s : jsstring) :
  well_formed s ->
  utf8_decode_units (utf8_units s) = s
  ∧ Forall (fun n => n < 256) (utf8_units s).
Proof.
  induction 1 as [|c s Hc Hh Hl _ [IHd IHb]|h l s Hh Hl _ [IHd IHb]].
  - split; [done | constructor].
  - destruct (N.lt_ge_cases c 0x80) as [H1|H1];
      [|destruct (N.lt_ge_cases c 0x800) as [H2|H2]].
    + rewrite encode_1 by done. split; [|constructor; [lia | done]].
      rewrite decode_1 by done. by rewrite IHd.
    + rewrite encode_2 by done.
      split; [|repeat (constructor; [divlia|]); done].
      rewrite decode_2 by divlia. rewrite IHd. f_equal. divlia.
    + rewrite encode_3 by done.
      split; [|repeat (constructor; [divlia|]); done].
      unfold is_high_surrogate, is_low_surrogate in Hh, Hl.
      assert (c < 0xD800 ∨ 0xDFFF < c) as Hns by (cmp_cases; lia).
      clear Hh Hl.
      rewrite decode_3 by divlia. rewrite IHd. f_equal. divlia.
  - rewrite encode_4 by done. cbv zeta.
    unfold is_high_surrogate, is_low_surrogate in Hh, Hl.
    assert (0xD800 <= h <= 0xDBFF ∧ 0xDC00 <= l <= 0xDFFF) as [Hh' Hl']
      by (cmp_cases; lia).
    clear Hh Hl.
    set (cp := 0x10000 + (h - 0xD800) * 0x400 + (l - 0xDC00)).
    assert (0x10000 <= cp < 0x110000) as Hcp by (subst cp; lia).
    assert (0xD800 + (cp - 0x10000) / 0x400 = h
            ∧ 0xDC00 + (cp - 0x10000) mod 0x400 = l) as [Eh El]
      by (subst cp; divlia).
    clearbody cp. clear Hh' Hl'.
    split; [|repeat (constructor; [divlia|]); done].
    rewrite decode_4 by divlia.
    rewrite code_point_recompose.
    unfold units_of_code_point.
    destruct (N.ltb_spec cp 0x10000); [lia|].
    rewrite Eh, El, IHd. done.
Qed.

Lemma utf8_decode_encode (s : jsstring) :
  well_formed s -> utf8_decode (utf8_encode s) = s.
Proof.
  intros [Hd Hb]%utf8_units_roundtrip.
  unfold utf8_decode, utf8_encode. by rewrite map_to_N_byte_of.
Qed.

(** ** The matcher *)

Lemma plus_greedy_sound cls k s g caps :
  plus_greedy cls k s = Some (g, caps) ->
  ∃ rest, s = g ++ rest ∧ g ≠ [] ∧ in_class cls g ∧ k rest = Some caps.
Proof.
  revert g caps. induction s as [|x s IH]; intros g caps; cbn [plus_greedy]; [done|].
  destruct (cls x) eqn:Hx; [|done].
  destruct (plus_greedy cls k s) as [[g' caps']|] eqn:E.
  - intros [= <- <-].
    destruct (IH _ _ eq_refl) as (rest & -> & _ & Hg & Hk).
    exists rest. split_and!; [done|done| |done]. by constructor.
  - destruct (k s) as [caps'|] eqn:Ek; [|done].
    intros [= <- <-]. exists s. split_and!; [done|done| |done].
    by repeat constructor.
Qed.

(** When the continuation cannot start inside the class and the run of
    class members ends at [rest], the repetition takes exactly the run. *)
Lemma plus_greedy_run cls k g rest :
  g ≠ [] -> in_class cls g ->
  (∀ x s, cls x = true -> k (x :: s) = None) ->
  (∀ x s, rest = x :: s -> cls x = false) ->
  plus_greedy cls k (g ++ rest) = (fun caps => (g, caps)) <$> k rest.
Proof.
  intros Hne Hg Hk Hrest.
  induction Hg as [|x g Hx Hg IH]; [done|]. clear Hne.
  cbn [app plus_greedy]. rewrite Hx.
  destruct g as [|y g].
  - cbn [app].
    assert (plus_greedy cls k rest = None) as ->.
    { destruct rest as [|z rest]; [done|].
      cbn [plus_greedy]. by rewrite (Hrest z rest). }
    by destruct (k rest).
  - rewrite IH by done.
    destruct (k rest) as [caps|]; [done|]. cbn.
    inversion_clear Hg as [|?? Hy _]. by rewrite (Hk y).
Qed.

Lemma match_here_lits_app l p s :
  match_here (lits l ++ p) (l ++ s) = match_here p s.
Proof.
  induction l as [|c l IH]; [done|].
  cbn [lits map app match_here]. rewrite N.eqb_refl. apply IH.
Qed.

Lemma match_here_lits_inv l p s caps :
  match_here (lits l ++ p) s = Some caps ->
  ∃ s', s = l ++ s' ∧ match_here p s' = Some caps.
Proof.
  revert s. induction l as [|c l IH]; intros s; [by exists s|].
  cbn [lits map app match_here].
  destruct s as [|x s]; [done|].
  destruct (N.eqb_spec x c) as [->|]; [|done].
  intros (s' & -> & H)%IH. by exists s'.
Qed.

Lemma match_here_lits_only l s :
  match_here (lits l) s = Some [] ↔ ∃ post, s = l ++ post.
Proof.
  split.
  - rewrite <- (app_nil_r (lits l)).
    intros (s' & -> & _)%match_here_lits_inv. by exists s'.
  - intros [post ->]. rewrite <- (app_nil_r (lits l)).
    by rewrite match_here_lits_app.
Qed.

Lemma match_here_lits_caps l s caps :
  match_here (lits l) s = Some caps -> caps = [].
Proof.
  rewrite <- (app_nil_r (lits l)).
  intros (s' & _ & [= <-])%match_here_lits_inv. done.
Qed.

Lemma match_here_cap cls p s :
  match_here (CapPlus cls :: p) s
  = match plus_greedy cls (match_here p) s with
    | Some (g, caps) => Some (g :: caps)
    | None => None
    end.
Proof. done. Qed.

Lemma match_here_lit c p x s :
  match_here (Lit c :: p) (x :: s) = if x =? c then match_here p s else None.
Proof. done. Qed.

(** A literal that is not in the class stops the continuation at once. *)
Lemma match_here_lit_stops cls c p x s :
  cls c = false -> cls x = true -> match_here (Lit c :: p) (x :: s) = None.
Proof.
  intros Hc Hx. cbn [match_here].
  destruct (N.eqb_spec x c) as [->|]; [congruence | done].
Qed.

(** *** The shapes the patterns accept *)

Lemma hint_class_colon : hint_class COLON = false.
Proof. done. Qed.

Lemma base64_class_glyph : base64_class GLYPH_HI = false.
Proof. done. Qed.

Lemma data_then_lits_sound l s caps :
  match_here (CapPlus base64_class :: lits l) s = Some caps ->
  ∃ d post, caps = [d] ∧ s = d ++ l ++ post ∧ is_data d.
Proof.
  cbn [match_here].
  destruct (plus_greedy _ _ s) as [[d caps']|] eqn:E; [|done].
  intros [= <-].
  apply plus_greedy_sound in E as (rest & -> & Hne & Hd & Hk).
  pose proof (match_here_lits_caps _ _ _ Hk) as ->.
  apply match_here_lits_only in Hk as [post ->].
  by exists d, post.
Qed.

Lemma data_then_lits_complete c l d post :
  base64_class c = false -> is_data d ->
  match_here (CapPlus base64_class :: lits (c :: l)) (d ++ (c :: l) ++ post) = Some [d].
Proof.
  intros Hc [Hne Hd]. cbn [match_here].
  rewrite plus_greedy_run; [| done | done | |].
  - change (Lit c :: map Lit l) with (lits (c :: l)).
    by rewrite (proj2 (match_here_lits_only (c :: l) _)) by by exists post.
  - intros x s Hx. by apply (match_here_lit_stops base64_class).
  - by intros x s [= <- _].
Qed.

Lemma match_without_hint_iff s caps :
  match_here pattern_without_hint s = Some caps ↔
  ∃ d post, caps = [d] ∧ s = GLYPH ++ d ++ GLYPH ++ post ∧ is_data d.
Proof.
  unfold pattern_without_hint. split.
  - intros (s' & -> & H)%match_here_lits_inv.
    apply data_then_lits_sound in H as (d & post & -> & -> & Hd).
    by exists d, post.
  - intros (d & post & -> & -> & Hd).
    rewrite match_here_lits_app. by apply data_then_lits_complete.
Qed.

Lemma match_with_hint_iff s caps :
  match_here pattern_with_hint s = Some caps ↔
  ∃ h d post,
    caps = [h; d] ∧ s = GLYPH ++ h ++ [COLON] ++ d ++ GLYPH ++ post
    ∧ is_hint h ∧ is_data d.
Proof.
  unfold pattern_with_hint. split.
  - intros (s' & -> & H)%match_here_lits_inv.
    cbn [app match_here] in H.
    destruct (plus_greedy hint_class _ s') as [[h caps']|] eqn:E; [|done].
    injection H as <-.
    apply plus_greedy_sound in E as (rest & -> & Hne & Hh & Hk).
    destruct rest as [|x rest]; [done|].
    destruct (N.eqb_spec x COLON) as [->|]; [|done].
    apply (data_then_lits_sound GLYPH) in Hk as (d & post & -> & -> & Hd).
    by exists h, d, post.
  - intros (h & d & post & -> & -> & [Hne Hh] & Hd).
    rewrite match_here_lits_app. cbn [app].
    rewrite match_here_cap, plus_greedy_run; [| done | done | |].
    + rewrite match_here_lit, N.eqb_refl.
      by rewrite (data_then_lits_complete GLYPH_HI [GLYPH_LO]).
    + intros x s Hx. by apply (match_here_lit_stops hint_class).
    + by intros x s [= <- _].
Qed.

(** *** The search for a start index *)

Lemma exec_from_here p s i caps :
  match_here p s = Some caps ->
  exec_from p s i = Some {| index := i; groups := caps |}.
Proof. intros H. destruct s; cbn [exec_from]; by rewrite H. Qed.

Lemma exec_from_skip p x s i :
  match_here p (x :: s) = None -> exec_from p (x :: s) i = exec_from p s (S i).
Proof. intros H. cbn [exec_from]. by rewrite H. Qed.

Lemma exec_from_Some p s i m :
  exec_from p s i = Some m ->
  ∃ j, index m = (i + j)%nat
       ∧ match_here p (drop j s) = Some (groups m)
       ∧ ∀ j', (j' < j)%nat -> match_here p (drop j' s) = None.
Proof.
  revert i. induction s as [|x s IH]; intros i.
  - cbn [exec_from]. destruct (match_here p []) as [caps|] eqn:E; [|done].
    intros [= <-]. exists 0%nat. cbn. split_and!; [lia | done | lia].
  - destruct (match_here p (x :: s)) as [caps|] eqn:E.
    + rewrite (exec_from_here _ _ _ _ E). intros [= <-].
      exists 0%nat. cbn. split_and!; [lia | done | lia].
    + rewrite exec_from_skip by done.
      intros (j & Hi & Hm & Hlt)%IH.
      exists (S j). split_and!; [lia | done |].
      intros [|j'] ?; [done|]. apply Hlt. lia.
Qed.

Lemma exec_from_None p s i :
  exec_from p s i = None -> ∀ j, match_here p (drop j s) = None.
Proof.
  revert i. induction s as [|x s IH]; intros i.
  - cbn [exec_from]. destruct (match_here p []) eqn:E; [done|].
    intros _ j. by rewrite drop_nil.
  - destruct (match_here p (x :: s)) as [caps|] eqn:E.
    + by rewrite (exec_from_here _ _ _ _ E).
    + rewrite exec_from_skip by done. intros H [|j]; [done|].
      apply (IH _ H).
Qed.

(** *** The hidden patterns never decide *)

Lemma plus_greedy_mono cls (k k' : jsstring -> option (list jsstring)) s r :
  (∀ s r, k s = Some r -> is_Some (k' s)) ->
  plus_greedy cls k s = Some r -> is_Some (plus_greedy cls k' s).
Proof.
  intros Hk. revert r. induction s as [|x s IH]; intros r; cbn [plus_greedy]; [done|].
  destruct (cls x); [|done].
  destruct (plus_greedy cls k s) as [[g caps]|] eqn:E.
  - intros _. destruct (IH _ eq_refl) as [[g' caps'] ->]. done.
  - destruct (k s) as [caps|] eqn:Ek; [|done]. intros _.
    destruct (Hk _ _ Ek) as [caps' ->].
    by destruct (plus_greedy cls k' s) as [[??]|].
Qed.

Lemma match_here_prefix p q s caps :
  match_here (p ++ q) s = Some caps -> is_Some (match_here p s).
Proof.
  revert s caps. induction p as [|[c|cls] p IH]; intros s caps; [done|..].
  - cbn [app match_here]. destruct s as [|x s]; [done|].
    destruct (x =? c); [apply IH | done].
  - cbn [app]. rewrite !match_here_cap.
    destruct (plus_greedy cls (match_here (p ++ q)) s) as [[g r]|] eqn:E; [|done].
    intros _.
    destruct (plus_greedy_mono cls _ (match_here p) _ _ IH E) as [[g' r'] ->].
    done.
Qed.

Lemma hidden_inside p text :
  exec p text = None ->
  exec (lits [PERCENT; PERCENT] ++ p ++ lits [PERCENT; PERCENT]) text = None.
Proof.
  intros Hnone.
  destruct (exec (_ ++ _) text) as [m|] eqn:E; [|done]. exfalso.
  apply exec_from_Some in E as (j & _ & Hm & _).
  apply match_here_lits_inv in Hm as (s' & Hs & Hm).
  apply match_here_prefix in Hm as [caps Hm].
  pose proof (exec_from_None _ _ _ Hnone (j + 2)%nat) as Hn.
  rewrite <- drop_drop, Hs in Hn. cbn [app drop] in Hn.
  rewrite drop_0 in Hn. congruence.
Qed.

(** *** [parseInPlaceEncrypted] *)

Lemma exec_with_hint_groups text m :
  exec pattern_with_hint text = Some m -> ∃ h d, groups m = [h; d].
Proof.
  intros (j & _ & Hm & _)%exec_from_Some.
  apply match_with_hint_iff in Hm as (h & d & post & -> & _). by exists h, d.
Qed.

Lemma exec_without_hint_groups text m :
  exec pattern_without_hint text = Some m -> ∃ d, groups m = [d].
Proof.
  intros (j & _ & Hm & _)%exec_from_Some.
  apply match_without_hint_iff in Hm as (d & post & -> & _). by exists d.
Qed.

Lemma parse_by_first_two text :
  parseInPlaceEncrypted text =
  match exec pattern_with_hint text with
  | Some m =>
      Some {| InPlace.hint := Some (nth 0 (groups m) []);
              InPlace.combinedData := nth 1 (groups m) [] |}
  | None =>
      match exec pattern_without_hint text with
      | Some m =>
          Some {| InPlace.hint := None;
                  InPlace.combinedData := nth 0 (groups m) [] |}
      | None => None
      end
  end.
Proof.
  unfold parseInPlaceEncrypted, patterns. cbn [parse_patterns].
  destruct (exec pattern_with_hint text) as [m|] eqn:E1.
  { destruct (exec_with_hint_groups _ _ E1) as (h & d & Hg).
    unfold match_length. by rewrite Hg. }
  destruct (exec pattern_without_hint text) as [m|] eqn:E2.
  { destruct (exec_without_hint_groups _ _ E2) as (d & Hg).
    unfold match_length. by rewrite Hg. }
  unfold pattern_hidden_with_hint, pattern_hidden_without_hint.
  by rewrite !hidden_inside.
Qed.

Lemma marker_with_hint_match text i h d :
  marker_with_hint_at text i h d ↔
  match_here pattern_with_hint (drop i text) = Some [h; d].
Proof.
  rewrite match_with_hint_iff. split.
  - intros (post & ? & ? & ?). by exists h, d, post.
  - intros (h' & d' & post & [= <- <-] & ? & ? & ?). by exists post.
Qed.

Lemma marker_without_hint_match text i d :
  marker_without_hint_at text i d ↔
  match_here pattern_without_hint (drop i text) = Some [d].
Proof.
  rewrite match_without_hint_iff. split.
  - intros (post & ? & ?). by exists d, post.
  - intros (d' & post & [= <-] & ? & ?). by exists post.
Qed.

(** C6, as the code has it: the patterns are tried in the order with-hint,
    without-hint (the hidden ones are never reached), and the first of them
    that matches anywhere decides; within that pattern the leftmost match
    is returned.  A returned hint is the text between the opening glyph
    and the delimiter of that match. *)
Theorem parse_first_pattern_leftmost (text : jsstring) :
  parseInPlaceEncrypted text
  = parse_patterns [pattern_with_hint; pattern_without_hint] text
  ∧ match parseInPlaceEncrypted text with
    | Some r =>
        match InPlace.hint r with
        | Some h =>
            ∃ i, marker_with_hint_at text i h (InPlace.combinedData r)
                 ∧ ∀ j h' d', (j < i)%nat -> ¬ marker_with_hint_at text j h' d'
        | None =>
            (∀ j h' d', ¬ marker_with_hint_at text j h' d')
            ∧ ∃ i, marker_without_hint_at text i (InPlace.combinedData r)
                   ∧ ∀ j d', (j < i)%nat -> ¬ marker_without_hint_at text j d'
        end
    | None =>
        (∀ j h d, ¬ marker_with_hint_at text j h d)
        ∧ (∀ j d, ¬ marker_without_hint_at text j d)
    end.
Proof.
  split.
  { rewrite parse_by_first_two. cbn [parse_patterns].
    destruct (exec pattern_with_hint text) as [m|] eqn:E1.
    { destruct (exec_with_hint_groups _ _ E1) as (h & d & Hg).
      unfold match_length. by rewrite Hg. }
    destruct (exec pattern_without_hint text) as [m|] eqn:E2; [|done].
    destruct (exec_without_hint_groups _ _ E2) as (d & Hg).
    unfold match_length. by rewrite Hg. }
  rewrite parse_by_first_two.
  destruct (exec pattern_with_hint text) as [m|] eqn:E1.
  { apply exec_from_Some in E1 as (i & _ & Hm & Hlt). cbn [InPlace.hint InPlace.combinedData].
    pose proof Hm as (h & d & post & Hg & _)%match_with_hint_iff.
    rewrite Hg in *. cbn [nth]. exists i. split.
    - by apply marker_with_hint_match.
    - intros j h' d' Hj Hmark%marker_with_hint_match.
      rewrite Hlt in Hmark by done. done. }
  pose proof (exec_from_None _ _ _ E1) as Hnone1.
  assert (∀ j h' d', ¬ marker_with_hint_at text j h' d') as Hno1.
  { intros j h' d' Hmark%marker_with_hint_match. by rewrite Hnone1 in Hmark. }
  destruct (exec pattern_without_hint text) as [m|] eqn:E2.
  { apply exec_from_Some in E2 as (i & _ & Hm & Hlt). cbn [InPlace.hint InPlace.combinedData].
    pose proof Hm as (d & post & Hg & _)%match_without_hint_iff.
    rewrite Hg in *. cbn [nth]. split; [done|]. exists i. split.
    - by apply marker_without_hint_match.
    - intros j d' Hj Hmark%marker_without_hint_match.
      rewrite Hlt in Hmark by done. done. }
  split; [done|].
  intros j d Hmark%marker_without_hint_match.
  by rewrite (exec_from_None _ _ _ E2) in Hmark.
Qed.

(** C6 fails as stated: the leftmost marker of [two_markers] is the one
    without a hint at index 0, and the marker returned is the later one. *)
Lemma leftmost_marker_not_returned :
  marker_without_hint_at two_markers 0 (js "QUJD")
  ∧ parseInPlaceEncrypted two_markers
    = Some {| InPlace.hint := Some (js "h"); InPlace.combinedData := js "REVG" |}.
Proof.
  split; [|by vm_compute].
  apply marker_without_hint_match. by vm_compute.
Qed.

Section Service.
Context {C : Crypto}.

Lemma encryptToBase64_result plaintext password w :
  (encryptToBase64 plaintext password w).1
  = {| EncryptionResult.ciphertext := base64_encode (sealed plaintext password w).1;
       EncryptionResult.salt := base64_encode (fresh_salt w);
       EncryptionResult.iv := base64_encode (fresh_iv w);
       EncryptionResult.authTag := base64_encode (sealed plaintext password w).2 |}.
Proof.
  unfold encryptToBase64, mbind, M_bind, mret, M_ret. cbn.
  by rewrite from_binary_toString.
Qed.

Lemma decryptFromBase64_result c password s i t w :
  decryptFromBase64 (JString c) password (JString s) (JString i) (JString t) w
  = (opened password (base64_decode s) (base64_decode i) (base64_decode t)
            (base64_decode c),
     after_decrypt password (base64_decode s) (base64_decode i) (base64_decode t) w).
Proof.
  unfold decryptFromBase64, mbind, M_bind, mret, M_ret, opened. cbn.
  by destruct (decipher_open _ _ _ _ _).
Qed.

Lemma encryptFileContent_result content password hint w :
  (encryptFileContent content password hint w).1
  = {| EncryptedFileData.version := js "1.0";
       EncryptedFileData.hint := hint;
       EncryptedFileData.ciphertext := base64_encode (sealed content password w).1;
       EncryptedFileData.salt := base64_encode (fresh_salt w);
       EncryptedFileData.iv := base64_encode (fresh_iv w);
       EncryptedFileData.authTag := base64_encode (sealed content password w).2 |}.
Proof.
  unfold encryptFileContent, mbind, M_bind, mret, M_ret.
  cbn [fst snd]. by rewrite encryptToBase64_result.
Qed.

Context {L : CryptoLaws C}.

Lemma fresh_salt_length w : length (fresh_salt w) = 16%nat.
Proof. apply randomBytes_length. Qed.

Lemma fresh_iv_length w : length (fresh_iv w) = 16%nat.
Proof. apply randomBytes_length. Qed.

Lemma derived_key_length password salt : length (derived_key password salt) = 32%nat.
Proof. apply pbkdf2Sync_length. Qed.

Lemma sealed_tag_length text password w : length (sealed text password w).2 = 16%nat.
Proof.
  apply authTag_length; [apply derived_key_length | apply fresh_iv_length].
Qed.

(** Opening what was sealed, with a password that derives the same key. *)
Lemma opened_sealed text password password' w :
  derived_key password' (fresh_salt w) = derived_key password (fresh_salt w) ->
  opened password' (fresh_salt w) (fresh_iv w)
         (sealed text password w).2 (sealed text password w).1
  = Some (utf8_decode (utf8_encode text)).
Proof.
  intros Hk. unfold opened, sealed. rewrite Hk.
  by rewrite decipher_seal by (apply derived_key_length || apply fresh_iv_length).
Qed.

Lemma decryptFileData_encrypted content password password' hint v w w' :
  (decryptFileData (with_version v (encryptFileContent content password hint w).1)
                   password' w').1
  = opened password' (fresh_salt w) (fresh_iv w)
           (sealed content password w).2 (sealed content password w).1.
Proof.
  rewrite encryptFileContent_result. unfold decryptFileData, with_version, at_run_time.
  cbn [EncryptedFileData.ciphertext EncryptedFileData.salt EncryptedFileData.iv
       EncryptedFileData.authTag ParsedFileData.ciphertext ParsedFileData.salt
       ParsedFileData.iv ParsedFileData.authTag].
  rewrite decryptFromBase64_result. cbn [fst].
  by rewrite !base64_decode_encode.
Qed.

Lemma with_version_same (fileData : EncryptedFileData.t) :
  with_version (EncryptedFileData.version fileData) fileData = fileData.
Proof. by destruct fileData. Qed.

End Service.

(** C1, for plaintexts without unpaired surrogates: the envelope of
    [encryptFileContent] decrypts, under the password that made it, to the
    plaintext. *)
Theorem decrypt_encrypted_file {C : Crypto} {L : CryptoLaws C}
    (P W : jsstring) (h : option jsstring) (w w' : world C) :
  well_formed P ->
  (decryptFileData (encryptFileContent P W h w).1 W w').1 = Some P.
Proof.
  intros HP.
  rewrite <- (with_version_same (encryptFileContent P W h w).1).
  rewrite decryptFileData_encrypted, opened_sealed by done.
  by rewrite utf8_decode_encode.
Qed.

(** An unpaired surrogate is not preserved, whatever the cipher. *)
Lemma lone_surrogate_replaced {C : Crypto} {L : CryptoLaws C}
    (W : jsstring) (h : option jsstring) (w w' : world C) :
  (decryptFileData (encryptFileContent [0xD800] W h w).1 W w').1 = Some [REPLACEMENT].
Proof.
  rewrite <- (with_version_same (encryptFileContent _ W h w).1).
  by rewrite decryptFileData_encrypted, opened_sealed by done.
Qed.

(** C4, as the code has it: [decryptFileData] never reads [version]; the
    envelope of [encryptFileContent] carries "1.0" and still decrypts to
    its plaintext when relabelled with any other version. *)
Theorem version_not_checked {C : Crypto} {L : CryptoLaws C}
    (P W v : jsstring) (h : option jsstring) (w w' : world C) :
  well_formed P ->
  EncryptedFileData.version (encryptFileContent P W h w).1 = js "1.0"
  ∧ (decryptFileData (with_version v (encryptFileContent P W h w).1) W w').1 = Some P.
Proof.
  intros HP. split; [by rewrite encryptFileContent_result|].
  rewrite decryptFileData_encrypted, opened_sealed by done.
  by rewrite utf8_decode_encode.
Qed.

(** Two passwords with the same UTF-8 bytes open each other's envelopes. *)
Lemma same_bytes_same_envelope {C : Crypto} {L : CryptoLaws C}
    (P W1 W2 : jsstring) (h : option jsstring) (w w' : world C) :
  utf8_encode W1 = utf8_encode W2 -> well_formed P ->
  (decryptFileData (encryptFileContent P W1 h w).1 W2 w').1 = Some P.
Proof.
  intros HW HP.
  rewrite <- (with_version_same (encryptFileContent P W1 h w).1).
  rewrite decryptFileData_encrypted, opened_sealed.
  - by rewrite utf8_decode_encode.
  - unfold derived_key. by rewrite HW.
Qed.


(** ** Markers *)

Lemma exec_from_pass c p pre s i :
  Forall (fun x => x ≠ c) pre ->
  exec_from (Lit c :: p) (pre ++ s) i = exec_from (Lit c :: p) s (length pre + i).
Proof.
  intros Hpre. revert i. induction Hpre as [|x pre Hx _ IH]; intros i; [done|].
  cbn [app]. rewrite exec_from_skip.
  - rewrite IH. f_equal. cbn [length]. lia.
  - rewrite match_here_lit. by destruct (N.eqb_spec x c).
Qed.

Lemma exec_with_hint_colon text m :
  exec pattern_with_hint text = Some m -> COLON ∈ text.
Proof.
  intros (j & _ & Hm & _)%exec_from_Some.
  apply match_with_hint_iff in Hm as (h & d & post & _ & Hd & _).
  assert (COLON ∈ drop j text) as Hin by (rewrite Hd; set_solver).
  rewrite <- (take_drop j text). set_solver.
Qed.

Lemma data_no_colon d : in_class base64_class d -> COLON ∉ d.
Proof.
  intros Hd Hin. apply (proj1 (Forall_forall _ _) Hd) in Hin. done.
Qed.

(** A marker with a hint is found behind any text free of the glyph. *)
Lemma parse_marker_with_hint pre h d post :
  Forall (fun x => x ≠ GLYPH_HI) pre -> is_hint h -> is_data d ->
  parseInPlaceEncrypted (pre ++ GLYPH ++ h ++ [COLON] ++ d ++ GLYPH ++ post)
  = Some {| InPlace.hint := Some h; InPlace.combinedData := d |}.
Proof.
  intros Hpre Hh Hd. rewrite parse_by_first_two.
  unfold exec. change pattern_with_hint with (Lit GLYPH_HI :: tail pattern_with_hint).
  rewrite exec_from_pass by done.
  change (Lit GLYPH_HI :: tail pattern_with_hint) with pattern_with_hint.
  rewrite (exec_from_here _ _ _ [h; d]); [done|].
  apply match_with_hint_iff. by exists h, d, post.
Qed.

(** A marker without a hint is found when no colon is around it. *)
Lemma parse_marker_without_hint pre d post :
  Forall (fun x => x ≠ GLYPH_HI) pre -> COLON ∉ pre -> COLON ∉ post -> is_data d ->
  parseInPlaceEncrypted (pre ++ GLYPH ++ d ++ GLYPH ++ post)
  = Some {| InPlace.hint := None; InPlace.combinedData := d |}.
Proof.
  intros Hpre Hc1 Hc2 Hd. rewrite parse_by_first_two.
  destruct (exec pattern_with_hint _) as [m|] eqn:E.
  { apply exec_with_hint_colon in E. exfalso.
    pose proof (data_no_colon d (proj2 Hd)).
    rewrite !elem_of_app in E. unfold GLYPH in E.
    destruct E as [?|[E|[?|[E|?]]]]; try done.
    all: by repeat (apply elem_of_cons in E as [?|E]; [done|]); apply elem_of_nil in E. }
  unfold exec. change pattern_without_hint with (Lit GLYPH_HI :: tail pattern_without_hint).
  rewrite exec_from_pass by done.
  change (Lit GLYPH_HI :: tail pattern_without_hint) with pattern_without_hint.
  rewrite (exec_from_here _ _ _ [d]); [done|].
  apply match_without_hint_iff. by exists d, post.
Qed.

Section InPlace.
Context {C : Crypto}.

Lemma encryptInPlace_result text password hint showMarker w :
  (encryptInPlace text password hint showMarker w).1
  = marker_prefix showMarker
    ++ (if truthy hint
        then default [] hint ++ [COLON] ++ base64_encode (combined_blob text password w)
        else base64_encode (combined_blob text password w))
    ++ marker_suffix showMarker.
Proof.
  unfold encryptInPlace, mbind, M_bind, mret, M_ret. cbn [fst snd].
  rewrite encryptToBase64_result.
  cbn [EncryptionResult.ciphertext EncryptionResult.salt EncryptionResult.iv
       EncryptionResult.authTag].
  by rewrite !base64_decode_encode.
Qed.

(** [decryptInPlace] once the marker is parsed: nothing happens on a blob
    under 48 bytes, otherwise the four slices go to the decipher. *)
Lemma decryptInPlace_parsed text password parsed w :
  parseInPlaceEncrypted text = Some parsed ->
  decryptInPlace text password w
  = let combined := base64_decode (InPlace.combinedData parsed) in
    if (length combined <? 48)%nat then (None, w)
    else (opened password (take 16 combined) (take 16 (drop 16 combined))
                 (take 16 (drop 32 combined)) (drop 48 combined),
          after_decrypt password (take 16 combined) (take 16 (drop 16 combined))
                        (take 16 (drop 32 combined)) w).
Proof.
  intros Hp. unfold decryptInPlace. rewrite Hp. cbv zeta.
  change (SALT_LENGTH + IV_LENGTH + AUTH_TAG_LENGTH)%nat with 48%nat.
  destruct (length _ <? 48)%nat; [done|].
  rewrite decryptFromBase64_result, !base64_decode_encode.
  done.
Qed.

Context {L : CryptoLaws C}.

Lemma combined_blob_slices text password w :
  let combined := combined_blob text password w in
  (48 <= length combined)%nat
  ∧ take 16 combined = fresh_salt w
  ∧ take 16 (drop 16 combined) = fresh_iv w
  ∧ take 16 (drop 32 combined) = (sealed text password w).2
  ∧ drop 48 combined = (sealed text password w).1.
Proof.
  pose proof (fresh_salt_length w) as Hs.
  pose proof (fresh_iv_length w) as Hi.
  pose proof (sealed_tag_length text password w) as Ht.
  cbv zeta. unfold combined_blob. split_and!.
  - rewrite !length_app. lia.
  - by rewrite take_app_length' by done.
  - rewrite drop_app_length' by done. by rewrite take_app_length' by done.
  - rewrite (app_assoc (fresh_salt w)), drop_app_length' by (rewrite length_app; lia).
    by rewrite take_app_length' by done.
  - rewrite (app_assoc (fresh_salt w)), (app_assoc (_ ++ _)).
    by rewrite drop_app_length' by (rewrite !length_app; lia).
Qed.

Lemma combined_blob_data text password w :
  is_data (base64_encode (combined_blob text password w)).
Proof.
  split; [|apply base64_encode_class].
  apply base64_encode_nonempty.
  pose proof (combined_blob_slices text password w) as [Hlen _].
  cbv zeta in Hlen. intros E. rewrite E in Hlen. cbn in Hlen. lia.
Qed.

Lemma decryptInPlace_of_blob marker hint text password password' w w' :
  parseInPlaceEncrypted marker
  = Some {| InPlace.hint := hint;
            InPlace.combinedData := base64_encode (combined_blob text password w) |} ->
  (decryptInPlace marker password' w').1
  = opened password' (fresh_salt w) (fresh_iv w)
           (sealed text password w).2 (sealed text password w).1.
Proof.
  intros Hp. rewrite (decryptInPlace_parsed _ _ _ _ Hp).
  cbn [InPlace.combinedData]. cbv zeta. rewrite base64_decode_encode.
  destruct (combined_blob_slices text password w) as (Hlen & -> & -> & -> & ->).
  by destruct (Nat.ltb_spec (length (combined_blob text password w)) 48); [lia|].
Qed.

End InPlace.

Lemma marker_wrap showMarker data :
  marker_prefix showMarker ++ data ++ marker_suffix showMarker
  = hidden_wrap showMarker ++ GLYPH ++ data ++ GLYPH ++ hidden_wrap showMarker.
Proof.
  unfold marker_prefix, marker_suffix, hidden_wrap.
  destruct (default true showMarker); [|done].
  by rewrite !app_nil_r.
Qed.

Lemma hidden_wrap_no_glyph showMarker :
  Forall (fun x => x ≠ GLYPH_HI) (hidden_wrap showMarker).
Proof.
  unfold hidden_wrap. destruct (default true showMarker); by repeat constructor.
Qed.

Lemma hidden_wrap_no_colon showMarker : COLON ∉ hidden_wrap showMarker.
Proof.
  unfold hidden_wrap. destruct (default true showMarker); [apply not_elem_of_nil|].
  intros Hin. by repeat (apply elem_of_cons in Hin as [?|Hin]; [done|]); apply elem_of_nil in Hin.
Qed.

Section Markers.
Context {C : Crypto} {L : CryptoLaws C}.

Lemma parse_encryptInPlace text password hint showMarker w :
  (truthy hint = true -> usable_hint hint) ->
  parseInPlaceEncrypted (encryptInPlace text password hint showMarker w).1
  = Some {| InPlace.hint := if truthy hint then hint else None;
            InPlace.combinedData := base64_encode (combined_blob text password w) |}.
Proof.
  intros Hh. rewrite encryptInPlace_result, marker_wrap.
  pose proof (combined_blob_data text password w) as Hd.
  destruct (truthy hint) eqn:Ht.
  - destruct hint as [h|]; [|done]. cbn [default].
    rewrite <- !app_assoc.
    apply parse_marker_with_hint; [apply hidden_wrap_no_glyph | by apply Hh | done].
  - apply parse_marker_without_hint;
      [apply hidden_wrap_no_glyph | apply hidden_wrap_no_colon..| done].
Qed.

End Markers.

(** C5, for texts without unpaired surrogates and usable hints: the marker
    of [encryptInPlace], visible or hidden, parses to the hint it was given
    and decrypts under its password to the text. *)
Theorem inplace_roundtrip {C : Crypto} {L : CryptoLaws C}
    (text W : jsstring) (hint : option jsstring) (showMarker : option bool)
    (w w' : world C) :
  well_formed text -> usable_hint hint ->
  InPlace.hint <$> parseInPlaceEncrypted (encryptInPlace text W hint showMarker w).1
  = Some hint
  ∧ (decryptInPlace (encryptInPlace text W hint showMarker w).1 W w').1 = Some text.
Proof.
  intros Htext Hhint.
  pose proof (parse_encryptInPlace text W hint showMarker w (fun _ => Hhint)) as Hp.
  split.
  - rewrite Hp. cbn. f_equal. destruct hint as [[|??]|]; try done.
    by destruct Hhint.
  - rewrite (decryptInPlace_of_blob _ _ _ _ _ _ _ Hp), opened_sealed by done.
    by rewrite utf8_decode_encode.
Qed.

(** C9: an empty hint gives the same marker as no hint.  The marker is
    the whole of the shape without a hint: the glyph, the base64 data (not
    empty, no colon in it) and the glyph, and in hidden mode "%%" before
    and after; parsing it gives no hint back. *)
Theorem empty_hint_is_no_hint {C : Crypto} {L : CryptoLaws C}
    (text W : jsstring) (showMarker : option bool) (w : world C) :
  let marker := (encryptInPlace text W (Some []) showMarker w).1 in
  let data := base64_encode (combined_blob text W w) in
  encryptInPlace text W (Some []) showMarker w = encryptInPlace text W None showMarker w
  ∧ marker = (if default true showMarker
              then GLYPH ++ data ++ GLYPH
              else [PERCENT; PERCENT] ++ GLYPH ++ data ++ GLYPH ++ [PERCENT; PERCENT])
  ∧ is_data data
  ∧ marker_without_hint_at marker (length (hidden_wrap showMarker)) data
  ∧ parseInPlaceEncrypted marker
    = Some {| InPlace.hint := None; InPlace.combinedData := data |}.
Proof.
  cbv zeta. split_and!.
  - done.
  - rewrite encryptInPlace_result. cbn [truthy].
    unfold marker_prefix, marker_suffix.
    destruct (default true showMarker); by rewrite <- ?app_assoc.
  - apply combined_blob_data.
  - rewrite encryptInPlace_result, marker_wrap. cbn [truthy].
    exists (hidden_wrap showMarker). split; [|apply combined_blob_data].
    by rewrite drop_app_length.
  - by rewrite parse_encryptInPlace.
Qed.

(** C7: a parsed marker whose blob is under 48 bytes fails with no call
    into [crypto]; otherwise the blob is cut at 16, 32 and 48: its first
    16 bytes are the salt, the next 16 the iv, the next 16 the tag and the
    rest the ciphertext; the key is derived and the decipher is run. *)
Theorem decryptInPlace_slices {C : Crypto}
    (text password : jsstring) (parsed : InPlace.t) (w : world C) :
  parseInPlaceEncrypted text = Some parsed ->
  let combined := base64_decode (InPlace.combinedData parsed) in
  let salt := take 16 combined in
  let iv := take 16 (drop 16 combined) in
  let authTag := take 16 (drop 32 combined) in
  let ciphertext := drop 48 combined in
  ((length combined < 48)%nat -> decryptInPlace text password w = (None, w))
  ∧ ((48 <= length combined)%nat ->
     decryptInPlace text password w
     = (utf8_decode <$>
          decipher_open ALGORITHM (derived_key password salt) iv authTag ciphertext,
        {| rng := rng w;
           calls := calls w ++ [CallPbkdf2 (utf8_encode password) salt;
                                CallDecipher (derived_key password salt) iv authTag] |})).
Proof.
  intros Hp. cbv zeta. rewrite (decryptInPlace_parsed _ _ _ _ Hp). cbv zeta.
  split; intros Hlen.
  - by destruct (Nat.ltb_spec (length (base64_decode (InPlace.combinedData parsed))) 48);
      [|lia].
  - destruct (Nat.ltb_spec (length (base64_decode (InPlace.combinedData parsed))) 48);
      [lia|].
    unfold opened, after_decrypt, logged. cbn [rng calls].
    by rewrite <- app_assoc.
Qed.


(** ** The small instance obeys the laws *)

Module ToyFacts.
Import ToyCrypto.

Lemma same_refl b : same b b = true.
Proof. unfold same. by apply bool_decide_eq_true. Qed.

Lemma map_to_N_inj (a b : buffer) : map Byte.to_N a = map Byte.to_N b -> a = b.
Proof.
  intros H. by rewrite <- (map_byte_of_to_N a), <- (map_byte_of_to_N b), H.
Qed.

Lemma same_neq a b : a ≠ b -> same a b = false.
Proof.
  intros Hne. unfold same. apply bool_decide_eq_false.
  intros H. by apply Hne, map_to_N_inj.
Qed.

#[export] Instance toy_laws : CryptoLaws toy.
Proof.
  split.
  - intros n g. cbn. by rewrite length_replicate.
  - intros pw salt it len d. cbn. unfold toy_pbkdf2Sync.
    rewrite length_take, !length_app, length_replicate. lia.
  - intros key iv pt _ Hiv. cbn. unfold toy_tag.
    rewrite length_take, length_app, length_map, length_replicate. lia.
  - intros key iv pt _ _. cbn. unfold toy_open.
    rewrite take_app_length, drop_app_length, !same_refl. done.
Qed.

End ToyFacts.

(** ** The password cache *)

Section Cache.
Import PasswordService.
Local Open Scope Z_scope.
Context (getWorkspaceFolder : jsstring -> option jsstring).

Abbreviation key_of := (getCacheKey getWorkspaceFolder).

Lemma getCacheKey_set_cache m path this :
  key_of path (set_cache m this) = key_of path this.
Proof. done. Qed.

Lemma put_active pah path t0 this :
  active this = true ->
  put getWorkspaceFolder pah path t0 this
  = set_cache
      (<[key_of path this :=
           {| PasswordCacheEntry.password := PasswordAndHint.password pah;
              PasswordCacheEntry.hint := PasswordAndHint.hint pah;
              PasswordCacheEntry.timestamp := t0 |}]> (cache this))
      this.
Proof. intros Ha. unfold put. by rewrite Ha. Qed.

Lemma get_live path now this entry :
  cache this !! key_of path this = Some entry ->
  (timeout this > 0 ->
   now - PasswordCacheEntry.timestamp entry <= timeout this * 60 * 1000) ->
  get getWorkspaceFolder path now this
  = ({| PasswordAndHint.password := PasswordCacheEntry.password entry;
        PasswordAndHint.hint := PasswordCacheEntry.hint entry |}, this).
Proof.
  intros He Hage. unfold get. rewrite He.
  destruct (decide _) as [[??]|]; [lia | done].
Qed.

Lemma get_expired path now this entry :
  cache this !! key_of path this = Some entry ->
  timeout this > 0 ->
  now - PasswordCacheEntry.timestamp entry > timeout this * 60 * 1000 ->
  get getWorkspaceFolder path now this
  = (empty_result, set_cache (delete (key_of path this) (cache this)) this).
Proof.
  intros He HT Hage. unfold get. rewrite He.
  destruct (decide _) as [|Hn]; [done|]. destruct Hn. done.
Qed.

Lemma has_live path now this entry :
  cache this !! key_of path this = Some entry ->
  (timeout this > 0 ->
   now - PasswordCacheEntry.timestamp entry <= timeout this * 60 * 1000) ->
  (has getWorkspaceFolder path now this).1 = true.
Proof.
  intros He Hage. unfold has. rewrite He.
  destruct (decide _); [|done]. cbn. apply bool_decide_eq_true. by apply Hage.
Qed.

Lemma has_expired path now this entry :
  cache this !! key_of path this = Some entry ->
  timeout this > 0 ->
  now - PasswordCacheEntry.timestamp entry > timeout this * 60 * 1000 ->
  (has getWorkspaceFolder path now this).1 = false.
Proof.
  intros He HT Hage. unfold has. rewrite He.
  destruct (decide _); [|done]. cbn. apply bool_decide_eq_false. lia.
Qed.

Lemma has_absent path now this :
  cache this !! key_of path this = None ->
  (has getWorkspaceFolder path now this).1 = false.
Proof. intros He. unfold has. by rewrite He. Qed.

(** C8, for an active cache: what [put] stored is what [get] returns at
    once and for as long as the entry is no older than the timeout; past
    the timeout [get] returns empty strings and [has] is false; with a
    timeout of zero the entry stays, also through the sweep. *)
Theorem cache_ttl_contract (this : t) (pah : PasswordAndHint.t) (path : jsstring)
    (t0 now : Z) :
  active this = true ->
  let s := put getWorkspaceFolder pah path t0 this in
  let T := timeout this in
  get getWorkspaceFolder path t0 s = (pah, s)
  ∧ ((T > 0 -> now - t0 <= T * 60 * 1000) ->
     get getWorkspaceFolder path now s = (pah, s)
     ∧ (has getWorkspaceFolder path now s).1 = true)
  ∧ (T > 0 -> now - t0 > T * 60 * 1000 ->
     (get getWorkspaceFolder path now s).1 = empty_result
     ∧ (has getWorkspaceFolder path now s).1 = false
     ∧ (has getWorkspaceFolder path now (get getWorkspaceFolder path now s).2).1 = false)
  ∧ (T = 0 ->
     get getWorkspaceFolder path now s = (pah, s)
     ∧ (has getWorkspaceFolder path now s).1 = true
     ∧ removeExpiredEntries now s = s).
Proof.
  intros Ha. cbv zeta. rewrite (put_active _ _ _ _ Ha).
  set (entry := {| PasswordCacheEntry.password := PasswordAndHint.password pah;
                   PasswordCacheEntry.hint := PasswordAndHint.hint pah;
                   PasswordCacheEntry.timestamp := t0 |}).
  set (s := set_cache _ this).
  assert (cache s !! key_of path s = Some entry) as He.
  { unfold s. rewrite getCacheKey_set_cache. cbn. apply lookup_insert_eq. }
  assert (timeout s = timeout this) as HT by done.
  assert ({| PasswordAndHint.password := PasswordCacheEntry.password entry;
             PasswordAndHint.hint := PasswordCacheEntry.hint entry |} = pah) as Hpah
    by by destruct pah.
  split_and!.
  - rewrite (get_live _ _ _ _ He), Hpah; [done|]. cbn. lia.
  - intros Hage. rewrite (get_live _ _ _ _ He), Hpah by (rewrite HT; apply Hage).
    split; [done|]. apply (has_live _ _ _ _ He). rewrite HT. apply Hage.
  - intros Hpos Hage.
    rewrite (get_expired _ _ _ _ He) by (rewrite ?HT; done).
    split_and!; [done | by apply (has_expired _ _ _ _ He) |].
    cbn [snd]. apply has_absent. rewrite getCacheKey_set_cache. cbn.
    apply lookup_delete_eq.
  - intros H0.
    rewrite (get_live _ _ _ _ He), Hpah by (rewrite HT; lia).
    split_and!; [done | apply (has_live _ _ _ _ He); rewrite HT; lia |].
    unfold removeExpiredEntries. rewrite HT. by destruct (decide _).
Qed.

(** C10: [has] returns the cache as it found it, so what [size] and
    [clear] count is unchanged; and neither [put] nor an [init] that
    leaves caching on takes an entry away. *)
Theorem has_never_mutates (this : t) (path : jsstring) (now : Z) :
  (has getWorkspaceFolder path now this).2 = this
  ∧ size (has getWorkspaceFolder path now this).2 = size this
  ∧ (clear (has getWorkspaceFolder path now this).2).1 = (clear this).1
  ∧ (∀ pah p t0 k, is_Some (cache this !! k) ->
       is_Some (cache (put getWorkspaceFolder pah p t0 this) !! k))
  ∧ (∀ timeout_ level_, cache (init true timeout_ level_ this) = cache this).
Proof.
  assert ((has getWorkspaceFolder path now this).2 = this) as Hsame.
  { unfold has. destruct (cache this !! _); [|done]. by destruct (decide _). }
  rewrite !Hsame. split_and!; try done.
  intros pah p t0 k Hk. unfold put. destruct (active this); [|done]. cbn.
  destruct (decide (key_of p this = k)) as [->|Hne].
  - by rewrite lookup_insert_eq.
  - by rewrite lookup_insert_ne.
Qed.

(** X3: with a timeout other than zero the sweep keeps exactly the entries
    no older than the timeout. *)
Theorem sweep_keeps_the_live (now : Z) (this : t) (k : jsstring)
    (entry : PasswordCacheEntry.t) :
  timeout this ≠ 0 ->
  cache (removeExpiredEntries now this) !! k = Some entry
  ↔ cache this !! k = Some entry
    ∧ now - PasswordCacheEntry.timestamp entry <= timeout this * 60 * 1000.
Proof.
  intros HT. unfold removeExpiredEntries.
  destruct (decide (timeout this = 0)); [done|]. cbn [cache set_cache].
  rewrite map_lookup_filter_Some. cbn. split; intros [? ?]; split; (done || lia).
Qed.

(** X4: scoping.  At level [file] what is stored for one path is not seen
    from another; at level [workspace] every path sees the one entry. *)
Theorem cache_scoping (this : t) (pah : PasswordAndHint.t) (x y : jsstring)
    (t0 : Z) :
  active this = true ->
  (level this = file -> x ≠ y -> cache this !! y = None ->
   (get getWorkspaceFolder y t0 (put getWorkspaceFolder pah x t0 this)).1 = empty_result)
  ∧ (level this = workspace ->
     (get getWorkspaceFolder y t0 (put getWorkspaceFolder pah x t0 this)).1 = pah).
Proof.
  intros Ha. rewrite (put_active _ _ _ _ Ha). split.
  - intros Hl Hxy Hy. unfold get. rewrite !getCacheKey_set_cache.
    unfold getCacheKey. rewrite Hl. cbn [cache set_cache].
    by rewrite lookup_insert_ne, Hy.
  - intros Hl.
    rewrite (get_live _ _ _
               {| PasswordCacheEntry.password := PasswordAndHint.password pah;
                  PasswordCacheEntry.hint := PasswordAndHint.hint pah;
                  PasswordCacheEntry.timestamp := t0 |}).
    + by destruct pah.
    + rewrite !getCacheKey_set_cache. unfold getCacheKey. rewrite Hl.
      cbn [cache set_cache]. apply lookup_insert_eq.
    + cbn. lia.
Qed.

End Cache.

(** X5: the salt, iv and tag of a produced envelope each decode to
    exactly sixteen bytes. *)
Theorem envelope_field_sizes {C : Crypto} {L : CryptoLaws C}
    (P W : jsstring) (h : option jsstring) (w : world C) :
  let e := (encryptFileContent P W h w).1 in
  length (base64_decode (EncryptedFileData.salt e)) = 16%nat
  ∧ length (base64_decode (EncryptedFileData.iv e)) = 16%nat
  ∧ length (base64_decode (EncryptedFileData.authTag e)) = 16%nat.
Proof.
  cbv zeta. rewrite encryptFileContent_result.
  cbn [EncryptedFileData.salt EncryptedFileData.iv EncryptedFileData.authTag].
  rewrite !base64_decode_encode.
  split_and!; [apply fresh_salt_length | apply fresh_iv_length | apply sealed_tag_length].
Qed.

(** ** File names *)

Lemma endsWith_suffix (s t : jsstring) : endsWith s t = true ↔ t `suffix_of` s.
Proof.
  unfold endsWith. rewrite bool_decide_eq_true. split.
  - intros H. exists (take (length s - length t) s).
    rewrite <- H at 2. by rewrite take_drop.
  - intros [k ->]. rewrite length_app.
    replace (length k + length t - length t)%nat with (length k) by lia.
    by rewrite drop_app_length.
Qed.

Lemma endsWith_app (k t : jsstring) : endsWith (k ++ t) t = true.
Proof. apply endsWith_suffix. by exists k. Qed.

Lemma endsWith_false (s t : jsstring) : endsWith s t = false ↔ ¬ t `suffix_of` s.
Proof.
  rewrite <- endsWith_suffix. destruct (endsWith s t); split; (done || congruence).
Qed.

Lemma not_suffix_mdenc (k : jsstring) : ¬ js ".md.enc" `suffix_of` k ++ js ".mdenc".
Proof.
  intros [q H]. apply (f_equal reverse) in H. rewrite !reverse_app in H.
  vm_compute (reverse (js _)) in H. cbn [app] in H. congruence.
Qed.

(** X6: the path [encryptCurrentFile] writes the encrypted copy to is never
    a path [isEncryptedFile] accepts.  A path ending in ".md" only gets
    "enc" appended, so x.md becomes x.mdenc; any other path gets ".enc". *)
Theorem encrypted_copy_not_recognised (filePath : jsstring) :
  FileCommands.isEncryptedFile (FileCommands.encryptedPath filePath) = false
  ∧ (endsWith filePath (js ".md") = true ->
     ∃ stem, filePath = stem ++ js ".md"
             ∧ FileCommands.encryptedPath filePath = stem ++ js ".mdenc")
  ∧ (endsWith filePath (js ".md") = false ->
     FileCommands.encryptedPath filePath = filePath ++ js ".enc").
Proof.
  unfold FileCommands.isEncryptedFile, FileCommands.encryptedPath.
  destruct (endsWith filePath (js ".md")) eqn:E; split_and!; try done.
  - apply endsWith_suffix in E as [stem ->].
    apply endsWith_false. rewrite <- app_assoc. apply not_suffix_mdenc.
  - intros _. apply endsWith_suffix in E as [stem ->].
    exists stem. by rewrite <- app_assoc.
  - apply endsWith_false. intros H.
    apply (suffix_app_inv (js ".md") filePath (js ".enc")) in H.
    apply endsWith_suffix in H. congruence.
Qed.

Lemma take_app_suffix (k t : jsstring) :
  take (length (k ++ t) - length t) (k ++ t) = k.
Proof.
  rewrite length_app.
  replace (length k + length t - length t)%nat with (length k) by lia.
  by rewrite take_app_length.
Qed.

Lemma cut_enc (k : jsstring) : take (length (k ++ js ".enc") - 4) (k ++ js ".enc") = k.
Proof. apply (take_app_suffix k (js ".enc")). Qed.

Lemma decryptedPath_cut (filePath : jsstring) :
  FileCommands.decryptedPath filePath
  = if endsWith filePath (js ".enc") then take (length filePath - 4) filePath
    else filePath.
Proof.
  unfold FileCommands.decryptedPath, FileCommands.replace_final_enc, slice_off_end.
  destruct (endsWith filePath (js ".md.enc")) eqn:E; [|done].
  apply endsWith_suffix in E as [k ->].
  replace (k ++ js ".md.enc") with ((k ++ js ".md") ++ js ".enc")
    by by rewrite <- app_assoc.
  by rewrite endsWith_app.
Qed.

(** X7: the path [decryptToFile] writes the plaintext to.  A final ".enc"
    is cut off, so a path made by appending ".enc" gives the original back;
    a path without a final ".enc" is returned as it is.  For a path that
    [isEncryptedFile] accepts the result ends in ".md", is not accepted
    itself, and gives the path back when ".enc" is appended.  The path
    that [encryptCurrentFile] made is undone exactly when the original did
    not end in ".md". *)
Theorem decrypted_path_cuts_enc (filePath : jsstring) :
  FileCommands.decryptedPath (filePath ++ js ".enc") = filePath
  ∧ (endsWith filePath (js ".enc") = false ->
     FileCommands.decryptedPath filePath = filePath)
  ∧ (FileCommands.isEncryptedFile filePath = true ->
     FileCommands.decryptedPath filePath ++ js ".enc" = filePath
     ∧ endsWith (FileCommands.decryptedPath filePath) (js ".md") = true
     ∧ FileCommands.isEncryptedFile (FileCommands.decryptedPath filePath) = false)
  ∧ (FileCommands.decryptedPath (FileCommands.encryptedPath filePath) = filePath
     ↔ endsWith filePath (js ".md") = false).
Proof.
  split_and!.
  - by rewrite decryptedPath_cut, endsWith_app, cut_enc.
  - intros E. by rewrite decryptedPath_cut, E.
  - unfold FileCommands.isEncryptedFile. intros [k ->]%endsWith_suffix.
    replace (k ++ js ".md.enc") with ((k ++ js ".md") ++ js ".enc")
      by by rewrite <- app_assoc.
    rewrite decryptedPath_cut, endsWith_app, cut_enc.
    split_and!; [done | apply endsWith_app |].
    apply endsWith_false. intros [q H].
    apply (f_equal reverse) in H. rewrite !reverse_app in H.
    vm_compute (reverse (js _)) in H. cbn [app] in H. congruence.
  - unfold FileCommands.encryptedPath.
    destruct (endsWith filePath (js ".md")) eqn:E.
    + split; [|done]. intros H. exfalso.
      apply endsWith_suffix in E as [k ->].
      rewrite decryptedPath_cut in H.
      assert (endsWith ((k ++ js ".md") ++ js "enc") (js ".enc") = false) as E'.
      { apply endsWith_false. intros [q Hq].
        apply (f_equal reverse) in Hq. rewrite !reverse_app in Hq.
        vm_compute (reverse (js _)) in Hq. cbn [app] in Hq. congruence. }
      rewrite E' in H. apply (f_equal length) in H.
      rewrite !length_app in H. cbn in H. lia.
    + split; [done|]. intros _.
      by rewrite decryptedPath_cut, endsWith_app, cut_enc.
Qed.

Lemma trimStart_app (k t : jsstring) c :
  is_white_space c = false -> trimStart (k ++ c :: t) = trimStart k ++ c :: t.
Proof.
  intros Hc. induction k as [|x k IH]; cbn [app trimStart].
  - by rewrite Hc.
  - by destruct (is_white_space x).
Qed.

Lemma trimEnd_snoc (u : jsstring) c :
  is_white_space c = false -> trimEnd (u ++ [c]) = u ++ [c].
Proof.
  intros Hc. unfold trimEnd. rewrite reverse_snoc. cbn [trimStart]. rewrite Hc.
  by rewrite reverse_cons, reverse_involutive.
Qed.

Lemma trim_keeps_extension (k : jsstring) :
  trim (k ++ js ".md.enc") = trimStart k ++ js ".md.enc".
Proof.
  unfold trim. change (js ".md.enc") with (46 :: js "md.enc").
  rewrite trimStart_app by done.
  change (46 :: js "md.enc") with (js ".md.en" ++ [99]).
  rewrite app_assoc. by rewrite trimEnd_snoc.
Qed.

(** X8: the name box of [createEncryptedFile] accepts exactly the names
    that end in ".md.enc", and the trimmed name the file is created under
    is then one that [isEncryptedFile] accepts: trimming cannot remove the
    extension. *)
Theorem accepted_name_has_extension (value : jsstring) :
  (FileCommands.validateInput value = None ↔ endsWith value (js ".md.enc") = true)
  ∧ (FileCommands.validateInput value = None ->
     FileCommands.isEncryptedFile (trim value) = true).
Proof.
  assert (endsWith value (js ".md.enc") = true ->
          value ≠ [] ∧ trim value ≠ [] ∧ FileCommands.isEncryptedFile (trim value) = true)
    as Hext.
  { intros [k ->]%endsWith_suffix. rewrite trim_keeps_extension. split_and!.
    - by destruct k.
    - by destruct (trimStart k).
    - apply endsWith_app. }
  assert (FileCommands.validateInput value = None ↔ endsWith value (js ".md.enc") = true)
    as Hiff.
  { unfold FileCommands.validateInput. split.
    - destruct (_ || _); [done|]. by destruct (endsWith value _).
    - intros E. destruct (Hext E) as (Hne & Ht & _). rewrite E.
      rewrite bool_decide_eq_false_2 by done.
      destruct (trim value); [done|]. done. }
  split; [done|]. intros H%Hiff. by apply Hext.
Qed.

(** ** More on the password cache *)

Section CacheMore.
Import PasswordService.
Local Open Scope Z_scope.
Context (getWorkspaceFolder : jsstring -> option jsstring).

Abbreviation key_of := (getCacheKey getWorkspaceFolder).

Lemma get_absent path now this :
  cache this !! key_of path this = None ->
  get getWorkspaceFolder path now this = (empty_result, this).
Proof. intros He. unfold get. by rewrite He. Qed.

(** X1: [clear] returns the number of entries the cache held, and in the
    cache it leaves nothing is found: the size is zero, [get] gives the
    empty pair and [has] is false for every path at every time.  The
    settings are not touched. *)
Theorem clear_forgets_everything (this : t) (path : jsstring) (now : Z) :
  (clear this).1 = size this
  ∧ size (clear this).2 = 0%nat
  ∧ get getWorkspaceFolder path now (clear this).2 = (empty_result, (clear this).2)
  ∧ (has getWorkspaceFolder path now (clear this).2).1 = false
  ∧ (active (clear this).2, timeout (clear this).2, level (clear this).2)
    = (active this, timeout this, level this).
Proof.
  split_and!; [done | | | | done].
  - unfold size. cbn. apply map_size_empty.
  - apply get_absent. cbn. apply lookup_empty.
  - apply has_absent. cbn. apply lookup_empty.
Qed.

(** X2: once [init] has switched caching off the cache is empty and stays
    empty: [put] changes nothing, so [get] gives the empty pair and [has]
    is false for every path, whatever was put. *)
Theorem inactive_cache_stays_empty (timeout_ : Z) (level_ : level_t) (this : t)
    (pah : PasswordAndHint.t) (path path' : jsstring) (t0 now : Z) :
  let s := init false timeout_ level_ this in
  size s = 0%nat
  ∧ put getWorkspaceFolder pah path t0 s = s
  ∧ (get getWorkspaceFolder path' now (put getWorkspaceFolder pah path t0 s)).1
    = empty_result
  ∧ (has getWorkspaceFolder path' now (put getWorkspaceFolder pah path t0 s)).1 = false.
Proof.
  cbv zeta. split_and!.
  - unfold size. cbn. apply map_size_empty.
  - done.
  - change (put _ pah path t0 (init false timeout_ level_ this))
      with (init false timeout_ level_ this).
    rewrite get_absent; [done|]. cbn. apply lookup_empty.
  - change (put _ pah path t0 (init false timeout_ level_ this))
      with (init false timeout_ level_ this).
    apply has_absent. cbn. apply lookup_empty.
Qed.

(** X9: on an active cache a second [put] for the same path replaces the
    first: [get] returns the second pair, the size does not grow, and the
    cache is the one the second [put] alone would have made. *)
Theorem put_overwrites (this : t) (a b : PasswordAndHint.t) (path : jsstring)
    (t0 t1 : Z) :
  active this = true ->
  let s1 := put getWorkspaceFolder a path t0 this in
  let s2 := put getWorkspaceFolder b path t1 s1 in
  get getWorkspaceFolder path t1 s2 = (b, s2)
  ∧ size s2 = size s1
  ∧ s2 = put getWorkspaceFolder b path t1 this.
Proof.
  intros Ha. cbv zeta.
  rewrite (put_active _ a _ t0 _ Ha).
  rewrite (put_active _ b _ t1 (set_cache _ this)) by done.
  rewrite (put_active _ b _ t1 this) by done.
  rewrite getCacheKey_set_cache. cbn [cache set_cache].
  assert (∀ m m' (s : t), set_cache m (set_cache m' s) = set_cache m s) as Hss by done.
  rewrite Hss, insert_insert_eq. split_and!; [| |done].
  - rewrite (get_live _ _ _ _
               {| PasswordCacheEntry.password := PasswordAndHint.password b;
                  PasswordCacheEntry.hint := PasswordAndHint.hint b;
                  PasswordCacheEntry.timestamp := t1 |}).
    + by destruct b.
    + rewrite getCacheKey_set_cache. cbn. apply lookup_insert_eq.
    + cbn. lia.
  - unfold size. cbn [cache set_cache].
    rewrite <- (insert_insert_eq (cache this) (key_of path this)
                  {| PasswordCacheEntry.password := PasswordAndHint.password b;
                     PasswordCacheEntry.hint := PasswordAndHint.hint b;
                     PasswordCacheEntry.timestamp := t1 |}
                  {| PasswordCacheEntry.password := PasswordAndHint.password a;
                     PasswordCacheEntry.hint := PasswordAndHint.hint a;
                     PasswordCacheEntry.timestamp := t0 |}) at 1.
    rewrite !map_size_insert, lookup_insert_eq. done.
Qed.

(** X10: after [clearForFile] nothing is found for that path, and every
    entry under another key is kept.  At level [workspace] there is one key
    for all paths, so the password is then gone for every path. *)
Theorem clearForFile_forgets_scope (this : t) (path other : jsstring) (now : Z) :
  let s := clearForFile getWorkspaceFolder path this in
  get getWorkspaceFolder path now s = (empty_result, s)
  ∧ (has getWorkspaceFolder path now s).1 = false
  ∧ (∀ k, k ≠ key_of path this -> cache s !! k = cache this !! k)
  ∧ (level this = workspace ->
     get getWorkspaceFolder other now s = (empty_result, s)).
Proof.
  cbv zeta. unfold clearForFile. split_and!.
  - apply get_absent. rewrite getCacheKey_set_cache. cbn. apply lookup_delete_eq.
  - apply has_absent. rewrite getCacheKey_set_cache. cbn. apply lookup_delete_eq.
  - intros k Hk. cbn. by rewrite lookup_delete_ne.
  - intros Hl. apply get_absent. rewrite getCacheKey_set_cache.
    unfold getCacheKey. rewrite Hl. cbn. apply lookup_delete_eq.
Qed.

(** X11: at level [folder] two different paths of the same workspace
    folder have different keys (the key is the folder followed by the whole
    path), so a password stored for one file is not found for another file
    of that folder. *)
Theorem folder_level_is_per_file (this : t) (pah : PasswordAndHint.t)
    (x y : jsstring) (t0 now : Z) :
  level this = folder ->
  getWorkspaceFolder x = getWorkspaceFolder y ->
  x ≠ y ->
  key_of x this ≠ key_of y this
  ∧ (cache this !! key_of y this = None ->
     (get getWorkspaceFolder y now (put getWorkspaceFolder pah x t0 this)).1
     = empty_result).
Proof.
  intros Hl Hf Hxy.
  assert (key_of x this ≠ key_of y this) as Hk.
  { unfold getCacheKey. rewrite Hl, Hf.
    destruct (getWorkspaceFolder y) as [f|]; [|done].
    intros H. by apply app_inv_head in H as [= ->]. }
  split; [done|]. intros Hy.
  unfold put. destruct (active this).
  - cbn [negb]. rewrite get_absent; [done|].
    rewrite getCacheKey_set_cache. cbn. by rewrite lookup_insert_ne.
  - cbn [negb]. by rewrite get_absent.
Qed.

(** X12: with a negative timeout the two expiry checks disagree.  [has]
    and [get] skip the check (it needs [timeout > 0]) and report an entry
    stored in the past as present, while the sweep (which only skips a
    timeout of zero) removes it. *)
Theorem negative_timeout_sweeps_what_get_keeps (this : t) (path : jsstring)
    (entry : PasswordCacheEntry.t) (now : Z) :
  timeout this < 0 ->
  cache this !! key_of path this = Some entry ->
  PasswordCacheEntry.timestamp entry <= now ->
  (has getWorkspaceFolder path now this).1 = true
  ∧ get getWorkspaceFolder path now this
    = ({| PasswordAndHint.password := PasswordCacheEntry.password entry;
          PasswordAndHint.hint := PasswordCacheEntry.hint entry |}, this)
  ∧ cache (removeExpiredEntries now this) !! key_of path this = None.
Proof.
  intros HT He Hts. split_and!.
  - apply (has_live _ _ _ _ entry He). lia.
  - apply (get_live _ _ _ _ entry He). lia.
  - unfold removeExpiredEntries. destruct (decide _); [lia|]. cbn.
    apply map_lookup_filter_None. right. intros e He'. cbn.
    rewrite He in He'. injection He' as <-. lia.
Qed.

Lemma sweep_lookup now this k :
  timeout this ≠ 0 ->
  cache (removeExpiredEntries now this) !! k
  = match cache this !! k with
    | Some e =>
        if decide (now - PasswordCacheEntry.timestamp e <= timeout this * 60 * 1000)
        then Some e else None
    | None => None
    end.
Proof.
  intros HT. unfold removeExpiredEntries. destruct (decide _); [done|]. cbn.
  destruct (cache this !! k) as [e|] eqn:E.
  - destruct (decide _) as [Hle|Hgt].
    + apply map_lookup_filter_Some. split; [done|]. cbn. lia.
    + apply map_lookup_filter_None. right. intros e' He'. cbn.
      rewrite E in He'. injection He' as <-. lia.
  - apply map_lookup_filter_None. by left.
Qed.

(** X13: with a timeout that is not negative the sweep removes only what
    [get] and [has] would refuse anyway: after the sweep, at the same time,
    both answer as before it, [get] has nothing left to delete, and a
    second sweep changes nothing. *)
Theorem sweep_agrees_with_lazy_check (this : t) (path : jsstring) (now : Z) :
  timeout this >= 0 ->
  let s := removeExpiredEntries now this in
  (get getWorkspaceFolder path now s).1 = (get getWorkspaceFolder path now this).1
  ∧ (has getWorkspaceFolder path now s).1 = (has getWorkspaceFolder path now this).1
  ∧ (get getWorkspaceFolder path now s).2 = s
  ∧ removeExpiredEntries now s = s.
Proof.
  intros HT. cbv zeta.
  destruct (decide (timeout this = 0)) as [H0|Hn0].
  { assert (removeExpiredEntries now this = this) as ->.
    { unfold removeExpiredEntries. by destruct (decide _). }
    split_and!; try done.
    - unfold get. destruct (cache this !! _); [|done].
      destruct (decide _) as [[??]|]; [lia | done].
    - unfold removeExpiredEntries. by destruct (decide _). }
  assert (timeout this > 0) as Hpos by lia.
  assert (∀ p, key_of p (removeExpiredEntries now this) = key_of p this) as Hkey.
  { intros p. unfold removeExpiredEntries. by destruct (decide _). }
  assert (timeout (removeExpiredEntries now this) = timeout this) as HTs.
  { unfold removeExpiredEntries. by destruct (decide _). }
  pose proof (sweep_lookup now this (key_of path this) Hn0) as Hl.
  split_and!.
  - unfold get. rewrite Hkey, Hl, HTs.
    destruct (cache this !! key_of path this) as [e|]; [|done].
    repeat case_decide; first [done | lia].
  - unfold has. rewrite Hkey, Hl, HTs.
    destruct (cache this !! key_of path this) as [e|]; [|done].
    repeat case_decide; try done; try lia;
      cbn; symmetry; apply bool_decide_eq_false; lia.
  - unfold get. rewrite Hkey, Hl, HTs.
    destruct (cache this !! key_of path this) as [e|]; [|done].
    repeat case_decide; first [done | lia].
  - assert (∀ a b : t, cache a = cache b -> active a = active b ->
              timeout a = timeout b -> level a = level b -> a = b) as Hext.
    { intros [????] [????]; cbn; congruence. }
    apply Hext; try (unfold removeExpiredEntries; by repeat destruct (decide _)).
    apply map_eq. intros k.
    rewrite sweep_lookup by (rewrite HTs; done). rewrite HTs.
    rewrite (sweep_lookup now this k Hn0).
    destruct (cache this !! k) as [e|]; [|done].
    destruct (decide _) as [Hle|]; [|done]. by destruct (decide _).
Qed.

(** X14: [init] changes the level without touching the entries.  A
    password stored at level [workspace] sits under the key "workspace";
    after a change to level [file] it is no longer found for a path (other
    than the path "workspace" itself), yet still held and counted. *)
Theorem level_change_orphans_entries (this : t) (pah : PasswordAndHint.t)
    (x y : jsstring) (t0 now : Z) (timeout_ : Z) :
  active this = true -> level this = workspace ->
  y ≠ js "workspace" -> cache this !! y = None ->
  let s := init true timeout_ file (put getWorkspaceFolder pah x t0 this) in
  (get getWorkspaceFolder y now s).1 = empty_result
  ∧ (has getWorkspaceFolder y now s).1 = false
  ∧ cache s !! js "workspace"
    = Some {| PasswordCacheEntry.password := PasswordAndHint.password pah;
              PasswordCacheEntry.hint := PasswordAndHint.hint pah;
              PasswordCacheEntry.timestamp := t0 |}
  ∧ (0 < size s)%nat.
Proof.
  intros Ha Hl Hy Hnone. cbv zeta. rewrite (put_active _ _ _ _ _ Ha).
  assert (key_of x this = js "workspace") as -> by (unfold getCacheKey; by rewrite Hl).
  assert (∀ m, cache (init true timeout_ file (set_cache m this)) = m) as Hc by done.
  assert (∀ m p, key_of p (init true timeout_ file (set_cache m this)) = p) as Hk by done.
  split_and!.
  - rewrite get_absent; [done|]. rewrite Hk, Hc. by rewrite lookup_insert_ne.
  - apply has_absent. rewrite Hk, Hc. by rewrite lookup_insert_ne.
  - rewrite Hc. apply lookup_insert_eq.
  - unfold size. rewrite Hc.
    destruct (cache this !! js "workspace") eqn:E.
    + rewrite map_size_insert_Some by by rewrite E.
      destruct (base.size (cache this)) eqn:En; [|lia].
      apply map_size_empty_iff in En. rewrite En, lookup_empty in E. done.
    + rewrite map_size_insert_None by done. lia.
Qed.

End CacheMore.

(** ** What decryption returns *)

Ltac test_props :=
  repeat match goal with
    | H : _ && _ = true |- _ => apply andb_true_iff in H as [? ?]
    | H : (_ <=? _) = true |- _ => apply N.leb_le in H
    | H : (_ <? _) = true |- _ => apply N.ltb_lt in H
    | H : context [if N.eqb ?a ?b then _ else _] |- _ => destruct (N.eqb_spec a b)
    end.

Lemma wf_plain_unit c (s : jsstring) :
  c < 0xD800 ∨ 0xDFFF < c < 0x10000 -> well_formed s -> well_formed (c :: s).
Proof.
  intros Hc Hs. apply wf_unit; [lia | | | done].
  - unfold is_high_surrogate. destruct Hc; cmp_solve; done.
  - unfold is_low_surrogate. destruct Hc; cmp_solve; done.
Qed.

Lemma replacement_unit (s : jsstring) : well_formed s -> well_formed (REPLACEMENT :: s).
Proof. apply wf_plain_unit. unfold REPLACEMENT. lia. Qed.

Lemma wf_code_point cp (s : jsstring) :
  0x10000 <= cp < 0x110000 -> well_formed s ->
  well_formed (units_of_code_point cp ++ s).
Proof.
  intros Hcp Hs. unfold units_of_code_point.
  destruct (N.ltb_spec cp 0x10000); [lia|]. cbn [app].
  apply wf_pair; [| |done].
  - unfold is_high_surrogate. apply andb_true_iff. split; apply N.leb_le; divlia.
  - unfold is_low_surrogate. apply andb_true_iff. split; apply N.leb_le; divlia.
Qed.

(** Decoding never produces an unpaired surrogate. *)
Lemma utf8_decode_units_wf (bs : list N) : well_formed (utf8_decode_units bs).
Proof.
  remember (length bs) as n eqn:Hn. revert bs Hn.
  induction (lt_wf n) as [n _ IH]. intros bs ->.
  assert (∀ t, (length t < length bs)%nat -> well_formed (utf8_decode_units t)) as Hrec
    by (intros t Ht; by apply (IH (length t))).
  clear IH.
  destruct bs as [|b0 t0]; [constructor|].
  cbn [utf8_decode_units]. unfold is_continuation.
  repeat match goal with
    | |- well_formed (if ?c then _ else _) =>
        let H := fresh "T" in destruct c eqn:H; [|clear H]
    | |- well_formed (match ?l with [] => _ | _ :: _ => _ end) =>
        destruct l as [|? ?]
    end.
  all: try (apply replacement_unit; try constructor; apply Hrec; cbn [length]; lia).
  all: test_props.
  all: try (apply wf_plain_unit; [lia | apply Hrec; cbn [length]; lia]).
  all: apply wf_code_point; [lia | apply Hrec; cbn [length]; lia].
Qed.

Lemma utf8_decode_wf (b : buffer) : well_formed (utf8_decode b).
Proof. apply utf8_decode_units_wf. Qed.

Lemma opened_wf {C : Crypto} password salt iv authTag ciphertext content :
  opened password salt iv authTag ciphertext = Some content -> well_formed content.
Proof.
  unfold opened. destruct (decipher_open _ _ _ _ _); [|done].
  intros [= <-]. apply utf8_decode_wf.
Qed.




Lemma parse_hint_usable text r :
  parseInPlaceEncrypted text = Some r -> usable_hint (InPlace.hint r).
Proof.
  rewrite parse_by_first_two.
  destruct (exec pattern_with_hint text) as [m|] eqn:E1.
  - intros [= <-]. cbn.
    apply exec_from_Some in E1 as (j & _ & Hm & _).
    apply match_with_hint_iff in Hm as (h & d & post & -> & _ & Hh & _). done.
  - destruct (exec pattern_without_hint text); [|done]. by intros [= <-].
Qed.

(** X16: saving from the decrypted view.  The marker that [onSave] writes
    for the hint parsed out of the original marker ([hint ?? '']) parses
    back to that same hint, none when there was none, and decrypts under
    the password to the new content when that is well formed. *)
Theorem saved_marker_keeps_the_hint {C : Crypto} {L : CryptoLaws C}
    (text newContent password : jsstring) (r : InPlace.t) (showMarker : bool)
    (w w' : world C) :
  parseInPlaceEncrypted text = Some r ->
  let saved :=
    (SelectionCommands.reEncrypted newContent password (InPlace.hint r) showMarker w).1 in
  InPlace.hint <$> parseInPlaceEncrypted saved = Some (InPlace.hint r)
  ∧ (well_formed newContent -> (decryptInPlace saved password w').1 = Some newContent).
Proof.
  intros Hu%parse_hint_usable. cbv zeta. unfold SelectionCommands.reEncrypted.
  assert (parseInPlaceEncrypted
            (encryptInPlace newContent password (Some (default [] (InPlace.hint r)))
               (Some showMarker) w).1
          = Some {| InPlace.hint := InPlace.hint r;
                    InPlace.combinedData :=
                      base64_encode (combined_blob newContent password w) |}) as Hp.
  { rewrite parse_encryptInPlace.
    - destruct (InPlace.hint r) as [[|c h]|]; try done. by destruct Hu.
    - destruct (InPlace.hint r) as [[|c h]|]; done. }
  split.
  - by rewrite Hp.
  - intros Hwf. rewrite (decryptInPlace_of_blob _ _ _ _ _ _ _ Hp), opened_sealed by done.
    by rewrite utf8_decode_encode.
Qed.

Lemma decryptFileData_opened {C : Crypto} (fileData : EncryptedFileData.t)
    password (w : world C) :
  decryptFileData fileData password w
  = (opened password (base64_decode (EncryptedFileData.salt fileData))
            (base64_decode (EncryptedFileData.iv fileData))
            (base64_decode (EncryptedFileData.authTag fileData))
            (base64_decode (EncryptedFileData.ciphertext fileData)),
     after_decrypt password (base64_decode (EncryptedFileData.salt fileData))
                   (base64_decode (EncryptedFileData.iv fileData))
                   (base64_decode (EncryptedFileData.authTag fileData)) w).
Proof. unfold decryptFileData, at_run_time. apply decryptFromBase64_result. Qed.

(** X17: [changePassword], between the prompt and the write.  When the
    current password opens the file, the text it opens is well formed and
    the new envelope, made under the new password, opens to the same text
    with the new password and carries the new hint and version "1.0".
    When it does not open the file, no envelope is made and no randomness
    is drawn. *)
Theorem password_change_keeps_content {C : Crypto} {L : CryptoLaws C}
    (fileData : EncryptedFileData.t) (current new_ : PasswordAndHint.t)
    (w w' : world C) :
  match (decryptFileData fileData (PasswordAndHint.password current) w).1 with
  | Some content =>
      well_formed content
      ∧ ∃ newData,
          (FileCommands.changePassword_data fileData current new_ w).1 = Some newData
          ∧ (decryptFileData newData (PasswordAndHint.password new_) w').1 = Some content
          ∧ EncryptedFileData.hint newData = Some (PasswordAndHint.hint new_)
          ∧ EncryptedFileData.version newData = js "1.0"
  | None =>
      (FileCommands.changePassword_data fileData current new_ w).1 = None
      ∧ rng (FileCommands.changePassword_data fileData current new_ w).2 = rng w
  end.
Proof.
  unfold FileCommands.changePassword_data, mbind, M_bind, mret, M_ret.
  rewrite decryptFileData_opened. cbn [fst snd].
  destruct (opened _ _ _ _ _) as [content|] eqn:E; [|done].
  pose proof (opened_wf _ _ _ _ _ _ E) as Hwf. split; [done|].
  eexists. split; [reflexivity|]. cbn [fst].
  rewrite <- (with_version_same (encryptFileContent _ _ _ _).1).
  rewrite decryptFileData_encrypted, opened_sealed by done.
  rewrite utf8_decode_encode by done.
  by rewrite with_version_same, encryptFileContent_result.
Qed.

(** ** The range of a marker *)

Section Spans.
Import SelectionCommands.

Lemma star_greedy_sound cls k s n :
  star_greedy cls k s = Some n ->
  ∃ g rest m, s = g ++ rest ∧ in_class cls g ∧ k rest = Some m ∧ n = (length g + m)%nat.
Proof.
  revert n. induction s as [|x s IH]; intros n; cbn [star_greedy].
  - intros Hk. exists [], [], n. split_and!; [done | constructor | done | done].
  - destruct (cls x) eqn:Hx.
    + destruct (star_greedy cls k s) as [n'|] eqn:E.
      * intros [= <-]. destruct (IH _ eq_refl) as (g & rest & m & -> & Hg & Hk & ->).
        exists (x :: g), rest, m. split_and!; [done | by constructor | done | done].
      * intros Hk. exists [], (x :: s), n. split_and!; [done | constructor | done | done].
    + intros Hk. exists [], (x :: s), n. split_and!; [done | constructor | done | done].
Qed.

Lemma star_greedy_run cls k g rest :
  in_class cls g ->
  (∀ x s, cls x = true -> k (x :: s) = None) ->
  (∀ x s, rest = x :: s -> cls x = false) ->
  star_greedy cls k (g ++ rest) = (fun m => (length g + m)%nat) <$> k rest.
Proof.
  intros Hg Hk Hrest. induction Hg as [|x g Hx Hg IH]; cbn [app length].
  - destruct rest as [|y rest]; cbn [star_greedy].
    + by destruct (k []).
    + rewrite (Hrest y rest eq_refl). by destruct (k (y :: rest)).
  - cbn [star_greedy]. rewrite Hx, IH.
    destruct (k rest) as [m|]; [done|]. cbn. by apply Hk.
Qed.

Lemma span_here_slits_app l p s :
  span_here (slits l ++ p) (l ++ s) = (fun n => (length l + n)%nat) <$> span_here p s.
Proof.
  induction l as [|c l IH]; cbn [slits map app span_here length].
  - by destruct (span_here p s).
  - rewrite N.eqb_refl. fold (slits l). rewrite IH. by destruct (span_here p s).
Qed.

Lemma span_here_slits_inv l p s n :
  span_here (slits l ++ p) s = Some n ->
  ∃ s' m, s = l ++ s' ∧ span_here p s' = Some m ∧ n = (length l + m)%nat.
Proof.
  revert s n. induction l as [|c l IH]; intros s n; [by exists s, n|].
  cbn [slits map app span_here]. destruct s as [|x s]; [done|].
  destruct (N.eqb_spec x c) as [->|]; [|done].
  fold (slits l). destruct (span_here (slits l ++ p) s) as [n'|] eqn:E; [|done].
  intros [= <-]. destruct (IH _ _ E) as (s' & m & -> & Hm & ->).
  by exists s', m.
Qed.

Lemma span_here_glyph_stops x s p :
  not_glyph x = true -> span_here (slits GLYPH ++ p) (x :: s) = None.
Proof.
  intros Hx. cbn [slits GLYPH map app span_here].
  destruct (N.eqb_spec x GLYPH_HI) as [->|]; done.
Qed.

Lemma span_visible_iff s n :
  span_here span_visible s = Some n ↔
  ∃ x post, s = GLYPH ++ x ++ GLYPH ++ post ∧ in_class not_glyph x
            ∧ n = (4 + length x)%nat.
Proof.
  unfold span_visible. split.
  - intros (s' & m & -> & Hm & ->)%span_here_slits_inv.
    cbn [app span_here] in Hm.
    apply star_greedy_sound in Hm as (x & rest & m' & -> & Hx & Hk & ->).
    rewrite <- (app_nil_r (slits GLYPH)) in Hk.
    apply span_here_slits_inv in Hk as (post & m'' & -> & [= <-] & ->).
    exists x, post. split_and!; [done | done | cbn; lia].
  - intros (x & post & -> & Hx & ->).
    rewrite span_here_slits_app. cbn [app span_here].
    rewrite star_greedy_run; [|done| |].
    + rewrite <- (app_nil_r (slits GLYPH)), span_here_slits_app. cbn. f_equal. lia.
    + intros y s Hy. rewrite <- (app_nil_r (slits GLYPH)).
      by apply span_here_glyph_stops.
    + by intros y s [= <- _].
Qed.

Lemma span_at_match text i n :
  span_at text i n ↔ span_here span_visible (drop i text) = Some n.
Proof. by rewrite span_visible_iff. Qed.

Lemma match_from_here p s i n :
  span_here p s = Some n -> match_from p s i = Some (i, n).
Proof. intros H. destruct s; cbn [match_from]; by rewrite H. Qed.

Lemma match_from_skip p x s i :
  span_here p (x :: s) = None -> match_from p (x :: s) i = match_from p s (S i).
Proof. intros H. cbn [match_from]. by rewrite H. Qed.

Lemma match_from_Some p s i j n :
  match_from p s i = Some (j, n) ->
  ∃ d, j = (i + d)%nat ∧ span_here p (drop d s) = Some n
       ∧ ∀ d', (d' < d)%nat -> span_here p (drop d' s) = None.
Proof.
  revert i. induction s as [|x s IH]; intros i.
  - cbn [match_from]. destruct (span_here p []) eqn:E; [|done].
    intros [= <- <-]. exists 0%nat. split_and!; [lia | done | lia].
  - destruct (span_here p (x :: s)) as [m|] eqn:E.
    + rewrite (match_from_here _ _ _ _ E). intros [= <- <-].
      exists 0%nat. split_and!; [lia | done | lia].
    + rewrite match_from_skip by done.
      intros (d & -> & Hm & Hlt)%IH. exists (S d). split_and!; [lia | done |].
      intros [|d'] ?; [done|]. apply Hlt. lia.
Qed.

Lemma match_from_None p s i :
  match_from p s i = None -> ∀ d, span_here p (drop d s) = None.
Proof.
  revert i. induction s as [|x s IH]; intros i.
  - cbn [match_from]. destruct (span_here p []) eqn:E; [done|].
    intros _ d. by rewrite drop_nil.
  - destruct (span_here p (x :: s)) as [m|] eqn:E.
    + by rewrite (match_from_here _ _ _ _ E).
    + rewrite match_from_skip by done. intros H [|d]; [done|]. apply (IH _ H).
Qed.

Lemma match_from_pass c p pre s i :
  Forall (fun x => x ≠ c) pre ->
  match_from (SLit c :: p) (pre ++ s) i = match_from (SLit c :: p) s (length pre + i).
Proof.
  intros Hpre. revert i. induction Hpre as [|x pre Hx _ IH]; intros i; [done|].
  cbn [app]. rewrite match_from_skip.
  - rewrite IH. f_equal. cbn [length]. lia.
  - cbn [span_here]. by destruct (N.eqb_spec x c).
Qed.

Lemma star_greedy_mono cls (k k' : jsstring -> option nat) s n :
  (∀ s n, k s = Some n -> is_Some (k' s)) ->
  star_greedy cls k s = Some n -> is_Some (star_greedy cls k' s).
Proof.
  intros Hk. revert n. induction s as [|x s IH]; intros n; cbn [star_greedy].
  - apply Hk.
  - destruct (cls x).
    + destruct (star_greedy cls k s) as [m|] eqn:E.
      * intros _. by destruct (IH _ eq_refl) as [m' ->].
      * intros H. destruct (star_greedy cls k' s); [done|]. by apply (Hk _ n).
    + apply Hk.
Qed.

Lemma span_here_prefix p q s n :
  span_here (p ++ q) s = Some n -> is_Some (span_here p s).
Proof.
  revert s n. induction p as [|[c|cls] p IH]; intros s n; [done|..].
  - cbn [app span_here]. destruct s as [|x s]; [done|].
    destruct (x =? c); [|done].
    destruct (span_here (p ++ q) s) as [m|] eqn:E; [|done].
    intros _. by destruct (IH _ _ E) as [m' ->].
  - cbn [app span_here]. apply star_greedy_mono, IH.
Qed.

Lemma hidden_span_inside text :
  match_from span_visible text 0 = None -> match_from span_hidden text 0 = None.
Proof.
  intros Hnone. destruct (match_from span_hidden text 0) as [[j n]|] eqn:E; [|done].
  exfalso. apply match_from_Some in E as (d & _ & Hm & _).
  unfold span_hidden in Hm.
  apply span_here_slits_inv in Hm as (s' & m & Hs & Hm & _).
  apply span_here_prefix in Hm as [m' Hm].
  pose proof (match_from_None _ _ _ Hnone (d + 2)%nat) as Hn.
  rewrite <- drop_drop, Hs in Hn. cbn [app drop] in Hn. rewrite drop_0 in Hn.
  congruence.
Qed.

Lemma range_by_visible text :
  findEncryptedMarkerRange text
  = (fun '(i, n) => {| start := i; end_ := (i + n)%nat |})
      <$> match_from span_visible text 0.
Proof.
  unfold findEncryptedMarkerRange. cbn [first_range].
  destruct (match_from span_visible text 0) as [[i n]|] eqn:E; [done|].
  by rewrite hidden_span_inside.
Qed.

(** X18: [findEncryptedMarkerRange] returns the leftmost span glyph ..
    glyph with no code unit of the glyph in between, as its start and its
    end index in the text, and returns null exactly when the text has no
    such span.  The second pattern (with "%%") never decides. *)
Theorem marker_range_is_leftmost_span (text : jsstring) :
  match findEncryptedMarkerRange text with
  | Some r =>
      (start r <= end_ r)%nat
      ∧ span_at text (start r) (end_ r - start r)
      ∧ ∀ j n, (j < start r)%nat -> ¬ span_at text j n
  | None => ∀ j n, ¬ span_at text j n
  end.
Proof.
  rewrite range_by_visible.
  destruct (match_from span_visible text 0) as [[i n]|] eqn:E; cbn.
  - apply match_from_Some in E as (d & -> & Hm & Hlt). cbn. split_and!; [lia | |].
    + apply span_at_match. by replace (d + n - d)%nat with n by lia.
    + intros j m Hj Hs%span_at_match. rewrite Hlt in Hs by done. done.
  - intros j n Hs%span_at_match. by rewrite (match_from_None _ _ _ E) in Hs.
Qed.

Lemma range_of_span pre x post :
  Forall (fun c => c ≠ GLYPH_HI) pre -> in_class not_glyph x ->
  findEncryptedMarkerRange (pre ++ GLYPH ++ x ++ GLYPH ++ post)
  = Some {| start := length pre; end_ := (length pre + 4 + length x)%nat |}.
Proof.
  intros Hpre Hx. rewrite range_by_visible.
  change span_visible with (SLit GLYPH_HI :: tail span_visible).
  rewrite match_from_pass by done.
  change (SLit GLYPH_HI :: tail span_visible) with span_visible.
  rewrite (match_from_here _ _ _ (4 + length x)%nat).
  - cbn. do 2 f_equal; lia.
  - apply span_visible_iff. by exists x, post.
Qed.

Lemma hint_class_not_glyph c : hint_class c = true -> not_glyph c = true.
Proof.
  unfold hint_class, not_glyph.
  destruct (c =? COLON), (c =? GLYPH_HI), (c =? GLYPH_LO); done.
Qed.

Lemma base64_class_not_glyph c : base64_class c = true -> not_glyph c = true.
Proof.
  unfold base64_class, not_glyph, GLYPH_HI, GLYPH_LO, PAD. intros H.
  destruct (N.eqb_spec c 0xD83D) as [->|]; [done|].
  destruct (N.eqb_spec c 0xDD10) as [->|]; done.
Qed.

Lemma in_class_impl (cls cls' : N -> bool) s :
  (∀ c, cls c = true -> cls' c = true) -> in_class cls s -> in_class cls' s.
Proof. intros H Hs. by eapply Forall_impl. Qed.

Lemma not_glyph_colon : not_glyph COLON = true.
Proof. done. Qed.

End Spans.

Section SpansOfMarkers.
Import SelectionCommands.
Context {C : Crypto}.

(** X19: on a marker made by [encryptInPlace] with a hint free of the
    glyph's code units, the range found is the part from glyph to glyph:
    the whole marker when it is visible, and the marker without its two
    "%%" wrappers when it is hidden, so these are left in the document
    when the range is replaced. *)
Theorem range_of_produced_marker text password hint showMarker (w : world C) :
  in_class not_glyph (default [] hint) ->
  let marker := (encryptInPlace text password hint showMarker w).1 in
  findEncryptedMarkerRange marker
  = Some {| start := length (hidden_wrap showMarker);
            end_ := (length marker - length (hidden_wrap showMarker))%nat |}.
Proof.
  intros Hh marker. subst marker. rewrite encryptInPlace_result, marker_wrap.
  set (data := if truthy hint then _ else _).
  assert (in_class not_glyph data) as Hdata.
  { pose proof (in_class_impl _ _ _ base64_class_not_glyph
                  (base64_encode_class (combined_blob text password w))) as Hb.
    subst data. destruct (truthy hint); [|done].
    apply Forall_app; split; [done|]. by constructor. }
  rewrite range_of_span by (done || apply hidden_wrap_no_glyph).
  do 2 f_equal. rewrite !length_app. cbn [GLYPH length]. lia.
Qed.

End SpansOfMarkers.






(** X20: whenever [parseInPlaceEncrypted] finds a marker in a text,
    [findEncryptedMarkerRange] finds a range in it: after a successful
    decryption [showDecryptedContent] never falls back to the whole
    selection. *)
Theorem parsed_text_has_range (text : jsstring) parsed :
  parseInPlaceEncrypted text = Some parsed ->
  is_Some (SelectionCommands.findEncryptedMarkerRange text).
Proof.
  intros Hp. pose proof (marker_range_is_leftmost_span text) as Hr.
  destruct (SelectionCommands.findEncryptedMarkerRange text) as [r|]; [done|].
  exfalso. rewrite parse_by_first_two in Hp.
  destruct (exec pattern_with_hint text) as [m|] eqn:E1.
  - apply exec_from_Some in E1 as (j & _ & Hm & _).
    apply match_with_hint_iff in Hm as (h & d & post & _ & Hs & [_ Hh] & [_ Hd]).
    apply (Hr j (4 + length (h ++ [COLON] ++ d))%nat).
    exists (h ++ [COLON] ++ d), post. split_and!; [by rewrite Hs, <- !app_assoc| |done].
    apply Forall_app; split; [by eapply in_class_impl, Hh; apply hint_class_not_glyph|].
    constructor; [done|]. by eapply in_class_impl, Hd; apply base64_class_not_glyph.
  - destruct (exec pattern_without_hint text) as [m|] eqn:E2; [|done].
    apply exec_from_Some in E2 as (j & _ & Hm & _).
    apply match_without_hint_iff in Hm as (d & post & _ & Hs & [_ Hd]).
    apply (Hr j (4 + length d)%nat).
    exists d, post. split_and!; [done| |done].
    by eapply in_class_impl, Hd; apply base64_class_not_glyph.
Qed.


(** ** Escaping *)

Lemma replace_each_app f s t :
  replace_each f (s ++ t) = replace_each f s ++ replace_each f t.
Proof. unfold replace_each. apply bind_app. Qed.

Lemma replace_each_cons f c s :
  replace_each f (c :: s) = f c ++ replace_each f s.
Proof. done. Qed.

Lemma replace_each_ext f g s :
  (∀ x, f x = g x) -> replace_each f s = replace_each g s.
Proof.
  intros H. induction s as [|c s IH]; [done|].
  by rewrite !replace_each_cons, H, IH.
Qed.

Lemma replace_each_compose f g s :
  replace_each f (replace_each g s) = replace_each (fun x => replace_each f (g x)) s.
Proof.
  induction s as [|c s IH]; [done|].
  by rewrite !replace_each_cons, replace_each_app, IH.
Qed.

Lemma replace_each_inj f :
  (∀ x, f x ≠ []) ->
  (∀ x y r r', f x ++ r = f y ++ r' -> x = y) ->
  ∀ s t, replace_each f s = replace_each f t -> s = t.
Proof.
  intros Hne Hpre. induction s as [|x s IH]; intros [|y t]; rewrite ?replace_each_cons.
  - done.
  - intros H. symmetry in H. apply app_eq_nil in H as [H _]. by apply Hne in H.
  - intros H. apply app_eq_nil in H as [H _]. by apply Hne in H.
  - intros H. pose proof (Hpre _ _ _ _ H) as ->.
    apply app_inv_head in H. by rewrite (IH _ H).
Qed.

Lemma replace_each_Forall (P : N -> Prop) f s :
  (∀ x, Forall P (f x)) -> Forall P (replace_each f s).
Proof.
  intros H. induction s as [|c s IH]; [constructor|].
  rewrite replace_each_cons. by apply Forall_app.
Qed.


Ltac eqb_cases :=
  repeat match goal with
         | |- context [N.eqb ?x ?y] => destruct (N.eqb_spec x y) as [->|]
         end.

Ltac js_values :=
  repeat match goal with
         | |- context [js ?s] =>
             let v := eval vm_compute in (js s) in change (js s) with v
         end.

Ltac not_listed :=
  rewrite ?not_elem_of_cons; split_and?; first [done | apply not_elem_of_nil].

Section EscapeHtml.

Let f5 := fun m : N =>
  if m =? 38 then js "&amp;" else if m =? 60 then js "&lt;"
  else if m =? 62 then js "&gt;" else if m =? 34 then js "&quot;"
  else if m =? 39 then js "&#039;" else [m].

Let f7 := fun m : N =>
  if m =? 38 then js "&amp;" else if m =? 60 then js "&lt;"
  else if m =? 62 then js "&gt;" else if m =? 34 then js "&quot;"
  else if m =? 39 then js "&#039;" else if m =? 96 then js "&#96;"
  else if m =? 47 then js "&#47;" else [m].

Lemma f5_code x y r r' : f5 x ++ r = f5 y ++ r' -> x = y.
Proof.
  unfold f5. js_values. eqb_cases; try done; cbn; intros [= ?]; congruence.
Qed.

Lemma f7_code x y r r' : f7 x ++ r = f7 y ++ r' -> x = y.
Proof.
  unfold f7. js_values. eqb_cases; try done; cbn; intros [= ?]; congruence.
Qed.

Lemma f5_clean x : Forall (fun c => c ∉ [60; 62; 34; 39]) (f5 x).
Proof.
  unfold f5. js_values. eqb_cases; repeat constructor; not_listed.
Qed.

Lemma f7_clean x : Forall (fun c => c ∉ [60; 62; 34; 39; 96; 47]) (f7 x).
Proof.
  unfold f7. js_values. eqb_cases; repeat constructor; not_listed.
Qed.

(** X22: the three [escapeHtml].  The output of the document provider's
    contains none of [<], [>], the double and the single quote, and no two
    texts have the same output; the panel's [_escapeHtml] is the same
    function; the editor's output is also free of the backquote and the
    slash, and it loses nothing either. *)
Theorem escapeHtml_clean_and_lossless :
  (∀ text, Forall (fun c => c ∉ [60; 62; 34; 39])
                  (EncryptedDocumentProvider.escapeHtml text))
  ∧ (∀ s t, EncryptedDocumentProvider.escapeHtml s
            = EncryptedDocumentProvider.escapeHtml t -> s = t)
  ∧ (∀ text, DecryptPanel._escapeHtml text = EncryptedDocumentProvider.escapeHtml text)
  ∧ (∀ text, Forall (fun c => c ∉ [60; 62; 34; 39; 96; 47])
                    (EncryptedFileEditorProvider.escapeHtml text))
  ∧ (∀ s t, EncryptedFileEditorProvider.escapeHtml s
            = EncryptedFileEditorProvider.escapeHtml t -> s = t).
Proof.
  split_and!.
  - intros text. apply replace_each_Forall, f5_clean.
  - apply replace_each_inj; [|apply f5_code].
    intros x. fold (f5 x). unfold f5. by eqb_cases.
  - done.
  - intros text. apply replace_each_Forall, f7_clean.
  - apply replace_each_inj; [|apply f7_code].
    intros x. fold (f7 x). unfold f7. by eqb_cases.
Qed.

End EscapeHtml.

Section EscapeJs.
Import EncryptedDocumentProvider.

Lemma replace_all_app c r s t :
  replace_all c r (s ++ t) = replace_all c r s ++ replace_all c r t.
Proof. apply replace_each_app. Qed.

Lemma escapeJs_app s t : escapeJs (s ++ t) = escapeJs s ++ escapeJs t.
Proof. unfold escapeJs. by rewrite !replace_all_app. Qed.

Lemma escapeJs_unit c :
  escapeJs [c]
  = if c =? BACKSLASH then [BACKSLASH; BACKSLASH]
    else if c =? QUOTE then [BACKSLASH; QUOTE]
    else if c =? DQUOTE then [BACKSLASH; DQUOTE]
    else if c =? LF then [BACKSLASH; 0x6E]
    else if c =? CR then [BACKSLASH; 0x72]
    else [c].
Proof.
  unfold escapeJs, replace_all, replace_each, BACKSLASH, QUOTE, DQUOTE, LF, CR.
  cbn [mbind list_bind app].
  destruct (N.eqb_spec c 92) as [->|]; [done|].
  destruct (N.eqb_spec c 39) as [->|]; [done|].
  destruct (N.eqb_spec c 34) as [->|]; [done|].
  destruct (N.eqb_spec c 10) as [->|]; [done|].
  destruct (N.eqb_spec c 13) as [->|]; [done|].
  cbn [mbind list_bind app].
  repeat (match goal with
          | |- context [N.eqb c ?y] => destruct (N.eqb_spec c y); [done|]
          end; cbn [mbind list_bind app]).
  done.
Qed.

Lemma literal_value_escaped_unit c rest :
  literal_value (escapeJs [c] ++ rest) = cons c <$> literal_value rest.
Proof.
  rewrite escapeJs_unit. unfold BACKSLASH, QUOTE, DQUOTE, LF, CR.
  destruct (N.eqb_spec c 92) as [->|]; [done|].
  destruct (N.eqb_spec c 39) as [->|]; [done|].
  destruct (N.eqb_spec c 34) as [->|]; [done|].
  destruct (N.eqb_spec c 10) as [->|]; [done|].
  destruct (N.eqb_spec c 13) as [->|]; [done|].
  cbn [app literal_value]. unfold BACKSLASH, QUOTE, LF, CR.
  destruct (N.eqb_spec c 92); [done|].
  destruct (N.eqb_spec c 39); [done|].
  destruct (N.eqb_spec c 10); [done|].
  by destruct (N.eqb_spec c 13).
Qed.

Lemma literal_value_escapeJs (text : jsstring) :
  literal_value (escapeJs text) = Some text.
Proof.
  induction text as [|c text IH]; [done|].
  change (c :: text) with ([c] ++ text).
  by rewrite escapeJs_app, literal_value_escaped_unit, IH.
Qed.

(** X23: read as JavaScript alone, the literal in single quotes whose body
    is [escapeJs text] denotes [text], for every text.  That is all
    [escapeJs] looks after: it passes the end tag of a script through
    unchanged, wherever it stands in the text, so the body it makes for a
    text with that tag in it still has the tag in it. *)
Theorem escapeJs_literal_round_trip :
  (∀ text, literal_value (escapeJs text) = Some text)
  ∧ (∀ before after,
       escapeJs (before ++ js "</script>" ++ after)
       = escapeJs before ++ js "</script>" ++ escapeJs after).
Proof.
  split; [apply literal_value_escapeJs|].
  intros before after. rewrite escapeJs_app, (escapeJs_app (js "</script>")).
  do 2 f_equal.
Qed.

End EscapeJs.





Section EditorPassword.
Import EncryptedFileEditorProvider EditorPage.
Context {C : Crypto} {L : CryptoLaws C}.

Let f7 := fun m : N =>
  if m =? 38 then js "&amp;" else if m =? 60 then js "&lt;"
  else if m =? 62 then js "&gt;" else if m =? 34 then js "&quot;"
  else if m =? 39 then js "&#039;" else if m =? 96 then js "&#96;"
  else if m =? 47 then js "&#47;" else [m].




End EditorPassword.

(** ** The password dialogs *)

Section Dialogs.
Import PasswordPrompt.

(** One run of the input box loop: the answers before the one returned
    were all refused with an error, the one returned is a dismissal (and
    the result empty) or passes the validation. *)
Lemma ask_returns validate pending errors v s' :
  ask validate pending errors = Some (v, s') ->
  ∃ pre a,
    pending = pre ++ a :: answers s'
    ∧ Forall (fun x => ∃ r e, x = Some r ∧ validate r = Some e ∧ e ≠ []) pre
    ∧ (a = None ∧ v = [] ∨ a = Some v ∧ (validate v = None ∨ validate v = Some []))
    ∧ shown s' = errors ++ omap (fun x => x ≫= validate) pre.
Proof.
  revert errors. induction pending as [|[result|] rest IH]; intros errors; cbn [ask].
  - done.
  - destruct (validate result) as [[|e error]|] eqn:E.
    + intros [= <- <-]. exists [], (Some result). cbn. rewrite app_nil_r. eauto 10.
    + intros (pre & a & -> & Hpre & Ha & ->)%IH.
      exists (Some result :: pre), a. split_and!; [done| |done|].
      * constructor; [|done]. by exists result, (e :: error).
      * cbn. rewrite E. cbn. by rewrite <- app_assoc.
    + intros [= <- <-]. exists [], (Some result). cbn. rewrite app_nil_r. eauto 10.
  - intros [= <- <-]. exists [], None. cbn. rewrite app_nil_r. eauto 10.
Qed.

Lemma showInputBox_returns validate s v s' :
  showInputBox validate s = Some (v, s') ->
  ∃ pre a,
    answers s = pre ++ a :: answers s'
    ∧ (a = None ∧ v = []
       ∨ a = Some v ∧ (default (fun _ => None) validate v = None
                       ∨ default (fun _ => None) validate v = Some [])).
Proof.
  intros (pre & a & ? & _ & ? & _)%ask_returns. by exists pre, a.
Qed.

Lemma is_empty_nil s : is_empty s = true ↔ s = [].
Proof. by destruct s. Qed.

Lemma not_empty_accepts v :
  not_empty v = None ∨ not_empty v = Some [] -> v ≠ [].
Proof. unfold not_empty. js_values. destruct v; [by intros [|]|done]. Qed.

Lemma same_as_accepts p v :
  same_as p v = None ∨ same_as p v = Some [] -> v = p.
Proof.
  unfold same_as. js_values. case_bool_decide as H; [by intros [|]|].
  intros _. by destruct (decide (v = p)).
Qed.

Lemma different_from_accepts p v :
  different_from p v = None ∨ different_from p v = Some [] -> v ≠ [] ∧ v ≠ p.
Proof.
  unfold different_from. js_values. destruct v as [|c v]; [by intros [|]|]. cbn.
  case_bool_decide; [by intros [|]|]. done.
Qed.

(** X25: [showForEncryption].  The result is confirmed exactly when its
    password is not empty; a result that is not confirmed carries the
    default hint.  With confirmation on, a confirmed password was given
    twice, and the hint is the answer to the box right after the second
    time (empty when that box was dismissed). *)
Theorem encryption_prompt_confirms_typed_password options s r s' :
  showForEncryption options s = Some (r, s') ->
  (confirmed r = true ↔ password r ≠ [])
  ∧ (confirmed r = false -> hint r = default [] (defaultHint options))
  ∧ (confirmed r = true -> default true (confirmPassword options) = true ->
     ∃ pre mid h,
       answers s = pre ++ [Some (password r)] ++ mid ++ [Some (password r); h] ++ answers s'
       ∧ hint r = default [] h).
Proof.
  unfold showForEncryption. cbn [mbind option_bind].
  destruct (showInputBox (Some not_empty) s) as [[pwd s1]|] eqn:E1; [|done]. cbn.
  destruct (is_empty pwd) eqn:Hpwd.
  { apply is_empty_nil in Hpwd as ->. intros [= <- <-]. cbn. done. }
  assert (pwd ≠ []) as Hne by (by destruct pwd).
  apply showInputBox_returns in E1 as (pre & a & Hs & [[_ ->]|[-> _]]); [done|].
  destruct (default true (confirmPassword options)).
  - destruct (showInputBox (Some (same_as pwd)) s1) as [[c s2]|] eqn:E2; [|done]. cbn.
    destruct (is_empty c) eqn:Hc.
    { intros [= <- <-]. cbn. done. }
    apply showInputBox_returns in E2 as (mid & b & Hs1 & [[_ ->]|[-> Hb]]); [done|].
    apply same_as_accepts in Hb as ->.
    destruct (showInputBox None s2) as [[h s3]|] eqn:E3; [|done]. cbn.
    intros [= <- <-]. cbn. split_and!; [done|done|]. intros _ _.
    unfold showInputBox in E3. cbn in E3.
    destruct (answers s2) as [|[x|] rest] eqn:Hs2; [done|..];
      cbn in E3; injection E3 as <- <-; cbn.
    + exists pre, mid, (Some x). by rewrite Hs, Hs1.
    + exists pre, mid, None. by rewrite Hs, Hs1.
  - destruct (showInputBox None s1) as [[h s3]|] eqn:E3; [|done]. cbn.
    intros [= <- <-]. cbn. done.
Qed.

(** X26: [showForDecryption] returns on the first answer to its box,
    whatever the answer, and shows no error message: a dismissed or empty
    answer gives null, any other answer is returned as the password, with
    the hint of the options.  Without an answer it is still waiting. *)
Theorem decryption_prompt_asks_once options a rest errors :
  showForDecryption options {| answers := a :: rest; shown := errors |}
  = Some (if is_empty (default [] a) then None
          else Some {| PasswordAndHint.password := default [] a;
                       PasswordAndHint.hint := default [] (dec_hint options) |},
          {| answers := rest; shown := errors |})
  ∧ showForDecryption options {| answers := []; shown := errors |} = None.
Proof.
  split; [|done].
  unfold showForDecryption. cbn [answers shown decryption_loop].
  by destruct (default [] a) as [|c p].
Qed.

(** X27: [showForChangePassword].  A result that is not null has a
    current and a new password that are not empty and differ, the current
    hint is the one passed in, the new password was given twice, and the
    new hint is the answer to the last box. *)
Theorem change_prompt_result currentHint s r s' :
  showForChangePassword currentHint s = Some (Some r, s') ->
  let cur := PasswordAndHint.password (current r) in
  let new := PasswordAndHint.password (new_ r) in
  cur ≠ [] ∧ new ≠ [] ∧ new ≠ cur
  ∧ PasswordAndHint.hint (current r) = default [] currentHint
  ∧ ∃ pre1 pre2 pre3 h,
      answers s = pre1 ++ [Some cur] ++ pre2 ++ [Some new] ++ pre3
                  ++ [Some new; h] ++ answers s'
      ∧ PasswordAndHint.hint (new_ r) = default [] h.
Proof.
  unfold showForChangePassword. cbn [mbind option_bind].
  destruct (showInputBox (Some not_empty) s) as [[cur s1]|] eqn:E1; [|done]. cbn.
  destruct (is_empty cur) eqn:Hcur; [done|].
  assert (cur ≠ []) as Hne by (by destruct cur).
  apply showInputBox_returns in E1 as (pre1 & a & Hs & [[_ ->]|[-> _]]); [done|].
  destruct (showInputBox (Some (different_from cur)) s1) as [[new s2]|] eqn:E2; [|done].
  cbn. destruct (is_empty new) eqn:Hnew; [done|].
  apply showInputBox_returns in E2 as (pre2 & b & Hs1 & [[_ ->]|[-> Hb]]); [done|].
  apply different_from_accepts in Hb as [Hn1 Hn2].
  destruct (showInputBox (Some (same_as new)) s2) as [[c s3]|] eqn:E3; [|done]. cbn.
  destruct (is_empty c) eqn:Hc; [done|].
  apply showInputBox_returns in E3 as (pre3 & d & Hs2 & [[_ ->]|[-> Hd]]); [done|].
  apply same_as_accepts in Hd as ->.
  destruct (showInputBox None s3) as [[h s4]|] eqn:E4; [|done]. cbn.
  rewrite ?Hcur, ?Hnew. cbn. intros [= <- <-]. cbn. split_and!; [done..|].
  unfold showInputBox in E4. cbn in E4.
  destruct (answers s3) as [|[x|] rest] eqn:Hs3; [done|..];
    cbn in E4; injection E4 as <- <-; cbn.
  - exists pre1, pre2, pre3, (Some x). by rewrite Hs, Hs1, Hs2.
  - exists pre1, pre2, pre3, None. by rewrite Hs, Hs1, Hs2.
Qed.

End Dialogs.

(** ** Concrete runs *)

Import ToyFacts.

Ltac ascii_well_formed :=
  repeat (apply wf_unit; [done | done | done |]); apply wf_nil.

Lemma hello_well_formed : well_formed hello.
Proof. ascii_well_formed. Qed.

Lemma decrypt_encrypted_file_witness :
  (decryptFileData (encryptFileContent hello correct_horse (Some animal) w0).1
                   correct_horse w0).1 = Some hello.
Proof.
  apply (decrypt_encrypted_file hello correct_horse (Some animal) w0 w0).
  apply hello_well_formed.
Defined.

(** C1 fails as stated: a plaintext that is one unpaired surrogate comes
    back as U+FFFD. *)
Lemma lone_surrogate_not_returned :
  (decryptFileData (encryptFileContent [0xD800] correct_horse None w0).1
                   correct_horse w0).1 = Some [0xFFFD]
  ∧ [0xFFFD] ≠ [0xD800].
Proof. split; [by vm_compute | done]. Qed.




Lemma version_not_checked_witness :
  EncryptedFileData.version (encryptFileContent hello correct_horse None w0).1 = js "1.0"
  ∧ (decryptFileData
       (with_version (js "2.0") (encryptFileContent hello correct_horse None w0).1)
       correct_horse w0).1 = Some hello.
Proof.
  apply (version_not_checked hello correct_horse (js "2.0") None w0 w0).
  apply hello_well_formed.
Defined.

(** C4 fails as stated: an envelope labelled "2.0" is decrypted. *)
Lemma unknown_version_decrypted :
  EncryptedFileData.version
    (with_version (js "2.0") (encryptFileContent hello correct_horse None w0).1)
  = js "2.0"
  ∧ js "2.0" ≠ js "1.0"
  ∧ (decryptFileData
       (with_version (js "2.0") (encryptFileContent hello correct_horse None w0).1)
       correct_horse w0).1 = Some hello.
Proof. split_and!; [done | done | by vm_compute]. Qed.

Lemma animal_usable : usable_hint (Some animal).
Proof. split; [done|]. by repeat constructor. Qed.

Lemma inplace_roundtrip_witness :
  InPlace.hint <$>
    parseInPlaceEncrypted (encryptInPlace hello correct_horse (Some animal) (Some false) w0).1
  = Some (Some animal)
  ∧ (decryptInPlace (encryptInPlace hello correct_horse (Some animal) (Some false) w0).1
                    correct_horse w0).1 = Some hello.
Proof.
  apply (inplace_roundtrip hello correct_horse (Some animal) (Some false) w0 w0).
  - apply hello_well_formed.
  - apply animal_usable.
Defined.

(** C5 fails as stated: with the hint "a:b" the marker does not parse, so
    neither the hint nor the text comes back. *)
Lemma colon_hint_not_parsed :
  parseInPlaceEncrypted
    (encryptInPlace hello correct_horse (Some (js "a:b")) (Some true) w0).1 = None
  ∧ (decryptInPlace
       (encryptInPlace hello correct_horse (Some (js "a:b")) (Some true) w0).1
       correct_horse w0).1 = None.
Proof. by vm_compute. Qed.

Lemma decryptInPlace_slices_witness :
  decryptInPlace short_marker correct_horse w0 = (None, w0)
  ∧ decryptInPlace hello_marker correct_horse w0
    = (Some hello,
       {| rng := rng w0;
          calls := [CallPbkdf2 (utf8_encode correct_horse) (fresh_salt w0);
                    CallDecipher (derived_key correct_horse (fresh_salt w0))
                      (fresh_iv w0) (sealed hello correct_horse w0).2] |}).
Proof.
  split.
  - refine (proj1 (decryptInPlace_slices short_marker correct_horse
                     {| InPlace.hint := None; InPlace.combinedData := js "QUJD" |}
                     w0 _) _).
    + by vm_compute.
    + vm_compute. lia.
  - rewrite (proj2 (decryptInPlace_slices hello_marker correct_horse
                      {| InPlace.hint := None;
                         InPlace.combinedData :=
                           base64_encode (combined_blob hello correct_horse w0) |}
                      w0 ltac:(by vm_compute)) ltac:(vm_compute; lia)).
    by vm_compute.
Defined.

Lemma empty_hint_is_no_hint_witness :
  (encryptInPlace hello correct_horse (Some []) (Some false) w0).1
  = [PERCENT; PERCENT] ++ GLYPH ++ base64_encode (combined_blob hello correct_horse w0)
    ++ GLYPH ++ [PERCENT; PERCENT]
  ∧ parseInPlaceEncrypted (encryptInPlace hello correct_horse (Some []) (Some false) w0).1
    = Some {| InPlace.hint := None;
              InPlace.combinedData :=
                base64_encode (combined_blob hello correct_horse w0) |}.
Proof.
  destruct (empty_hint_is_no_hint hello correct_horse (Some false) w0)
    as (_ & Hmarker & _ & _ & Hparse).
  split; [exact Hmarker | exact Hparse].
Defined.

Lemma cache_ttl_contract_witness :
  let s := PasswordService.put no_workspace horse_and_animal a_b_md 0 PasswordService.new in
  PasswordService.get no_workspace a_b_md 0 s = (horse_and_animal, s)
  ∧ (PasswordService.get no_workspace a_b_md (minutes 31) s).1
    = PasswordService.empty_result
  ∧ (PasswordService.has no_workspace a_b_md (minutes 31) s).1 = false.
Proof.
  destruct (cache_ttl_contract no_workspace PasswordService.new horse_and_animal
              a_b_md 0 (minutes 31) eq_refl) as (Hnow & _ & Hlate & _).
  cbv zeta. split; [exact Hnow|].
  destruct Hlate as (Hget & Hhas & _); [done | done |].
  by split.
Defined.

(** C8 fails as stated: with caching switched off [put] stores nothing. *)
Lemma inactive_cache_stores_nothing :
  PasswordService.get no_workspace a_b_md 0
    (PasswordService.put no_workspace horse_and_animal a_b_md 0 switched_off)
  = (PasswordService.empty_result, switched_off)
  ∧ PasswordService.empty_result ≠ horse_and_animal.
Proof. split; [done | done]. Qed.

(** An expired entry, seen by [has], is still there to be counted. *)
Example expired_entry_still_counted :
  let s := PasswordService.put no_workspace horse_and_animal a_b_md 0 PasswordService.new in
  (PasswordService.has no_workspace a_b_md (minutes 31) s).1 = false
  ∧ PasswordService.size (PasswordService.has no_workspace a_b_md (minutes 31) s).2 = 1%nat
  ∧ (PasswordService.clear (PasswordService.has no_workspace a_b_md (minutes 31) s).2).1
    = 1%nat
  ∧ PasswordService.size (PasswordService.get no_workspace a_b_md (minutes 31) s).2 = 0%nat.
Proof. by vm_compute. Qed.

Lemma sweep_keeps_the_live_witness :
  cache_after_sweep (minutes 31) !! js "workspace" = Some stored_entry
  ↔ cache_before_sweep !! js "workspace" = Some stored_entry
    ∧ (minutes 31 - PasswordCacheEntry.timestamp stored_entry <= 30 * 60 * 1000)%Z.
Proof.
  apply (sweep_keeps_the_live (minutes 31)
           (PasswordService.put no_workspace horse_and_animal a_b_md 0 PasswordService.new)
           (js "workspace") stored_entry).
  done.
Defined.

Lemma cache_scoping_witness :
  (PasswordService.get no_workspace (js "/a/y") 0
     (PasswordService.put no_workspace horse_and_animal (js "/a/x") 0
        PasswordService.new)).1 = horse_and_animal.
Proof.
  apply (cache_scoping no_workspace PasswordService.new horse_and_animal
           (js "/a/x") (js "/a/y") 0 eq_refl).
  done.
Defined.

Lemma envelope_field_sizes_witness :
  length (base64_decode
            (EncryptedFileData.salt
               (encryptFileContent hello correct_horse (Some animal) w0).1)) = 16%nat
  ∧ length (base64_decode
              (EncryptedFileData.iv
                 (encryptFileContent hello correct_horse (Some animal) w0).1)) = 16%nat
  ∧ length (base64_decode
              (EncryptedFileData.authTag
                 (encryptFileContent hello correct_horse (Some animal) w0).1)) = 16%nat.
Proof. exact (envelope_field_sizes hello correct_horse (Some animal) w0). Defined.

(** ** Further concrete runs *)

Lemma put_overwrites_witness :
  let s1 := PasswordService.put no_workspace horse_and_animal a_b_md 0 PasswordService.new in
  let s2 := PasswordService.put no_workspace hello_and_animal a_b_md 5 s1 in
  PasswordService.get no_workspace a_b_md 5 s2 = (hello_and_animal, s2)
  ∧ PasswordService.size s2 = PasswordService.size s1
  ∧ s2 = PasswordService.put no_workspace hello_and_animal a_b_md 5 PasswordService.new.
Proof.
  exact (put_overwrites no_workspace PasswordService.new horse_and_animal
           hello_and_animal a_b_md 0 5 eq_refl).
Defined.

Lemma folder_level_is_per_file_witness :
  PasswordService.getCacheKey one_folder (js "/a/x") per_folder
  ≠ PasswordService.getCacheKey one_folder (js "/a/y") per_folder
  ∧ (PasswordService.cache per_folder
       !! PasswordService.getCacheKey one_folder (js "/a/y") per_folder = None ->
     (PasswordService.get one_folder (js "/a/y") 0
        (PasswordService.put one_folder horse_and_animal (js "/a/x") 0 per_folder)).1
     = PasswordService.empty_result).
Proof.
  apply (folder_level_is_per_file one_folder per_folder horse_and_animal
           (js "/a/x") (js "/a/y") 0 0); [reflexivity | reflexivity |].
  vm_compute. discriminate.
Defined.

Lemma negative_timeout_sweeps_what_get_keeps_witness :
  (PasswordService.has no_workspace a_b_md (minutes 1) negative_timeout).1 = true
  ∧ PasswordService.get no_workspace a_b_md (minutes 1) negative_timeout
    = (horse_and_animal, negative_timeout)
  ∧ PasswordService.cache
      (PasswordService.removeExpiredEntries (minutes 1) negative_timeout)
      !! PasswordService.getCacheKey no_workspace a_b_md negative_timeout = None.
Proof.
  apply (negative_timeout_sweeps_what_get_keeps no_workspace negative_timeout a_b_md
           stored_entry (minutes 1)).
  - reflexivity.
  - reflexivity.
  - vm_compute. discriminate.
Defined.

Lemma sweep_agrees_with_lazy_check_witness :
  let this := PasswordService.put no_workspace horse_and_animal a_b_md 0 PasswordService.new in
  let s := PasswordService.removeExpiredEntries (minutes 31) this in
  (PasswordService.get no_workspace a_b_md (minutes 31) s).1
  = (PasswordService.get no_workspace a_b_md (minutes 31) this).1
  ∧ (PasswordService.has no_workspace a_b_md (minutes 31) s).1
    = (PasswordService.has no_workspace a_b_md (minutes 31) this).1
  ∧ (PasswordService.get no_workspace a_b_md (minutes 31) s).2 = s
  ∧ PasswordService.removeExpiredEntries (minutes 31) s = s.
Proof.
  apply (sweep_agrees_with_lazy_check no_workspace
           (PasswordService.put no_workspace horse_and_animal a_b_md 0 PasswordService.new)
           a_b_md (minutes 31)).
  vm_compute. discriminate.
Defined.

Lemma level_change_orphans_entries_witness :
  let s := PasswordService.init true 30 PasswordService.file
             (PasswordService.put no_workspace horse_and_animal a_b_md 0
                PasswordService.new) in
  (PasswordService.get no_workspace a_b_md 0 s).1 = PasswordService.empty_result
  ∧ (PasswordService.has no_workspace a_b_md 0 s).1 = false
  ∧ PasswordService.cache s !! js "workspace" = Some stored_entry
  ∧ (0 < PasswordService.size s)%nat.
Proof.
  apply (level_change_orphans_entries no_workspace PasswordService.new horse_and_animal
           a_b_md a_b_md 0 0 30); [reflexivity | reflexivity | | reflexivity].
  vm_compute. discriminate.
Defined.



Lemma saved_marker_keeps_the_hint_witness :
  let saved :=
    (SelectionCommands.reEncrypted hello correct_horse (Some (js "h")) false w0).1 in
  InPlace.hint <$> parseInPlaceEncrypted saved = Some (Some (js "h"))
  ∧ (well_formed hello -> (decryptInPlace saved correct_horse w0).1 = Some hello).
Proof.
  apply (saved_marker_keeps_the_hint two_markers hello correct_horse hinted_marker
           false w0 w0).
  by vm_compute.
Defined.

Lemma password_change_keeps_content_witness :
  ∃ newData,
    (FileCommands.changePassword_data hello_envelope horse_and_animal hello_and_animal w0).1
    = Some newData
    ∧ (decryptFileData newData hello w0).1 = Some hello.
Proof.
  pose proof (password_change_keeps_content hello_envelope horse_and_animal
                hello_and_animal w0 w0) as H.
  assert ((decryptFileData hello_envelope
             (PasswordAndHint.password horse_and_animal) w0).1 = Some hello) as E
    by (by vm_compute).
  rewrite E in H. destruct H as (_ & newData & H1 & H2 & _).
  by exists newData.
Defined.

Lemma range_of_produced_marker_witness :
  let marker := (encryptInPlace hello correct_horse (Some animal) (Some false) w0).1 in
  SelectionCommands.findEncryptedMarkerRange marker
  = Some {| SelectionCommands.start := length (hidden_wrap (Some false));
            SelectionCommands.end_ :=
              (length marker - length (hidden_wrap (Some false)))%nat |}.
Proof.
  apply (range_of_produced_marker hello correct_horse (Some animal) (Some false) w0).
  by repeat constructor.
Defined.

Lemma parsed_text_has_range_witness :
  is_Some (SelectionCommands.findEncryptedMarkerRange two_markers).
Proof.
  apply (parsed_text_has_range two_markers hinted_marker). by vm_compute.
Defined.



Lemma encryption_prompt_confirms_typed_password_witness :
  let r := {| PasswordPrompt.confirmed := true;
              PasswordPrompt.password := correct_horse;
              PasswordPrompt.hint := animal |} in
  let s' := {| PasswordPrompt.answers := [];
               PasswordPrompt.shown := [js "Password cannot be empty";
                                        js "Passwords do not match"] |} in
  (PasswordPrompt.confirmed r = true ↔ PasswordPrompt.password r ≠ [])
  ∧ (PasswordPrompt.confirmed r = false ->
     PasswordPrompt.hint r = default [] (PasswordPrompt.defaultHint no_options))
  ∧ (PasswordPrompt.confirmed r = true ->
     default true (PasswordPrompt.confirmPassword no_options) = true ->
     ∃ pre mid h,
       PasswordPrompt.answers typed_twice
       = pre ++ [Some (PasswordPrompt.password r)] ++ mid
         ++ [Some (PasswordPrompt.password r); h] ++ PasswordPrompt.answers s'
       ∧ PasswordPrompt.hint r = default [] h).
Proof.
  apply (encryption_prompt_confirms_typed_password no_options typed_twice).
  by vm_compute.
Defined.

Lemma change_prompt_result_witness :
  let r := {| PasswordPrompt.current := horse_and_animal;
              PasswordPrompt.new_ := {| PasswordAndHint.password := hello;
                                        PasswordAndHint.hint := [] |} |} in
  let s' := {| PasswordPrompt.answers := [];
               PasswordPrompt.shown :=
                 [js "New password must be different from current password"] |} in
  let cur := PasswordAndHint.password (PasswordPrompt.current r) in
  let new := PasswordAndHint.password (PasswordPrompt.new_ r) in
  cur ≠ [] ∧ new ≠ [] ∧ new ≠ cur
  ∧ PasswordAndHint.hint (PasswordPrompt.current r) = default [] (Some animal)
  ∧ ∃ pre1 pre2 pre3 h,
      PasswordPrompt.answers change_answers
      = pre1 ++ [Some cur] ++ pre2 ++ [Some new] ++ pre3
        ++ [Some new; h] ++ PasswordPrompt.answers s'
      ∧ PasswordAndHint.hint (PasswordPrompt.new_ r) = default [] h.
Proof.
  apply (change_prompt_result (Some animal) change_answers). by vm_compute.
Defined.
